(** * orchestrator.api.helpers: query shaping and path addressing

    A shallow embedding of [src/orchestrator/api/helpers.py] and the
    properties its specification states about it.

    Python values are modelled as follows.
    - [str] is a [string] of 8-bit characters; case mapping, [isdigit] and
      whitespace are the ASCII ones.
    - exceptions are the constructors of [exn]; a computation that may raise
      returns a [result].
    - the trees [update_in] and [get_in] walk are made of [None], ints,
      strs, and of dicts and lists that live in a store ([heap]) and are
      referred to by location, so that a copy and the object it was made
      from are told apart; [M] is the state-and-error monad over that
      store.
    - [shlex], [int] and [UUID] follow the standard library, for str
      arguments; the limit on the length of decimal literals is left out.
    - the SQLAlchemy [Query] is the plan it builds (joins, criteria,
      ordering, offset and limit), with a relational reading over the
      rows of a store. The table classes and the store are not part of
      the sources: the names the classes define, which of them are
      columns, and the store are parameters ([Schema], [Store]). *)

From Stdlib Require Import ZArith Ascii String DecimalString DecimalNat.
From stdpp Require Import base tactics option list strings gmap.

Local Open Scope Z_scope.
Set Warnings "-register-all".

(** ** Exceptions and results *)

Inductive exn : Type :=
| KeyError (key : string)
| IndexError
| TypeError
| ValueError
| UnboundLocalError
| AttributeError
| AssertionError
| SystemError
| HTTPError (status : Z) (detail : string).

Inductive result (A : Type) : Type :=
| Ok (a : A)
| Raise (e : exn).
Arguments Ok {A} a.
Arguments Raise {A} e.

#[export] Instance result_ret : MRet result := fun A a => Ok a.
#[export] Instance result_bind : MBind result := fun A B k m =>
  match m with
  | Ok a => k a
  | Raise e => Raise e
  end.

Definition is_Ok {A} (r : result A) : bool :=
  match r with Ok _ => true | Raise _ => false end.

(** ** Python [str] methods (ASCII) *)

Module Str.

Definition quote_char : ascii := "034"%char.
Definition newline : ascii := "010"%char.
Definition tab : ascii := "009"%char.
Definition cr : ascii := "013"%char.

Definition of_char (c : ascii) : string := String c EmptyString.

Definition is_digit_char (c : ascii) : bool :=
  let n := nat_of_ascii c in (48 <=? n)%nat && (n <=? 57)%nat.

Fixpoint all_chars (p : ascii -> bool) (s : string) : bool :=
  match s with
  | EmptyString => true
  | String c s' => p c && all_chars p s'
  end.

(** [s.isdigit()]: non-empty and every character a digit. *)
Definition isdigit (s : string) : bool :=
  match s with
  | EmptyString => false
  | _ => all_chars is_digit_char s
  end.

Definition digit_value (c : ascii) : Z := Z.of_nat (nat_of_ascii c) - 48.

Fixpoint digits_value (acc : Z) (s : string) : Z :=
  match s with
  | EmptyString => acc
  | String c s' => digits_value (10 * acc + digit_value c) s'
  end.

Definition upper_char (c : ascii) : ascii :=
  let n := nat_of_ascii c in
  if (97 <=? n)%nat && (n <=? 122)%nat then ascii_of_nat (n - 32) else c.

Definition lower_char (c : ascii) : ascii :=
  let n := nat_of_ascii c in
  if (65 <=? n)%nat && (n <=? 90)%nat then ascii_of_nat (n + 32) else c.

Fixpoint map_chars (f : ascii -> ascii) (s : string) : string :=
  match s with
  | EmptyString => EmptyString
  | String c s' => String (f c) (map_chars f s')
  end.

Definition upper : string -> string := map_chars upper_char.
Definition lower : string -> string := map_chars lower_char.

(** [s.count(c)] for a one-character [c]. *)
Fixpoint count_char (c : ascii) (s : string) : nat :=
  match s with
  | EmptyString => O
  | String d s' => (if Ascii.eqb c d then 1 else 0) + count_char c s'
  end.

Fixpoint mem_char (c : ascii) (s : string) : bool :=
  match s with
  | EmptyString => false
  | String d s' => Ascii.eqb c d || mem_char c s'
  end.

(** [s.startswith(pre)] *)
Fixpoint startswith (s pre : string) : bool :=
  match pre with
  | EmptyString => true
  | String a pre' =>
      match s with
      | EmptyString => false
      | String b s' => Ascii.eqb a b && startswith s' pre'
      end
  end.

(** [sub in s]. *)
Fixpoint contains (sub s : string) : bool :=
  startswith s sub ||
  match s with
  | EmptyString => false
  | String _ s' => contains sub s'
  end.

Definition rev (s : string) : string :=
  string_of_list_ascii (List.rev (list_ascii_of_string s)).

Definition endswith (s suffix : string) : bool :=
  startswith (rev s) (rev suffix).

(** [s[:-n]] for [n > 0]. *)
Definition drop_last (n : nat) (s : string) : string :=
  String.substring 0 (String.length s - n) s.

(** [s.split(sep)] for a non-empty [sep]: [skip] counts the characters of
    a separator just matched that are still to be passed over, [cur] is
    the segment read so far. *)
Fixpoint split_from (sep : string) (skip : nat) (cur : string) (s : string)
  : list string :=
  match s with
  | EmptyString => [cur]
  | String c s' =>
      match skip with
      | S k => split_from sep k cur s'
      | O =>
          if startswith s sep
          then cur :: split_from sep (String.length sep - 1) EmptyString s'
          else split_from sep O (cur +:+ of_char c) s'
      end
  end.

(** [s.split(sep)]; an empty separator is a [ValueError]. *)
Definition split (s sep : string) : result (list string) :=
  match sep with
  | EmptyString => Raise ValueError
  | _ => Ok (split_from sep O EmptyString s)
  end.

(** [s.replace(old, "")] for a non-empty [old]. *)
Fixpoint remove_from (old : string) (skip : nat) (s : string) : string :=
  match s with
  | EmptyString => EmptyString
  | String c s' =>
      match skip with
      | S k => remove_from old k s'
      | O =>
          if startswith s old
          then remove_from old (String.length old - 1) s'
          else String c (remove_from old O s')
      end
  end.

Definition remove (old s : string) : string := remove_from old O s.

Fixpoint lstrip (chars s : string) : string :=
  match s with
  | EmptyString => EmptyString
  | String c s' => if mem_char c chars then lstrip chars s' else s
  end.

(** [s.strip(chars)]. *)
Definition strip (chars s : string) : string :=
  rev (lstrip chars (rev (lstrip chars s))).

(** [sep.join(l)]. *)
Fixpoint join (sep : string) (l : list string) : string :=
  match l with
  | [] => EmptyString
  | [s] => s
  | s :: l' => s +:+ sep +:+ join sep l'
  end.

(** [str(n)] for an [int]. *)
Definition of_Z (n : Z) : string := NilZero.string_of_int (Z.to_int n).
Definition of_nat (n : nat) : string := NilZero.string_of_uint (Nat.to_uint n).

End Str.


(** ** The object store

    The values a path walk meets: [None], [int] and [str] atoms, and
    references to the dicts and lists of the store. Two references are the
    same object exactly when their locations agree. *)

Definition loc := nat.

Inductive val : Type :=
| VNone
| VInt (n : Z)
| VStr (s : string)
| VRef (l : loc).

#[export] Instance val_eq_dec : EqDecision val.
Proof. solve_decision. Defined.

(** A dict keeps its items in insertion order, one item per key. *)
Inductive obj : Type :=
| ODict (items : list (val * val))
| OList (elems : list val).

Abbreviation heap := (list obj).

Fixpoint dict_get (k : val) (items : list (val * val)) : option val :=
  match items with
  | [] => None
  | (k', v) :: rest => if bool_decide (k' = k) then Some v else dict_get k rest
  end.

Fixpoint dict_set (k v : val) (items : list (val * val)) : list (val * val) :=
  match items with
  | [] => [(k, v)]
  | (k', v') :: rest =>
      if bool_decide (k' = k) then (k', v) :: rest
      else (k', v') :: dict_set k v rest
  end.

(** State and exceptions: an exception leaves the store as it was when
    it was raised. *)
Definition M (A : Type) : Type := heap -> result A * heap.

#[export] Instance M_ret : MRet M := fun A a h => (Ok a, h).
#[export] Instance M_bind : MBind M := fun A B k m h =>
  match m h with
  | (Ok a, h') => k a h'
  | (Raise e, h') => (Raise e, h')
  end.

Definition raise {A} (e : exn) : M A := fun h => (Raise e, h).

Definition lift {A} (r : result A) : M A := fun h => (r, h).

(** A new object, at the first unused location. *)
Definition alloc (o : obj) : M loc := fun h => (Ok (length h), h ++ [o]).

(** The object at a location; no operation below makes a reference that
    the store does not hold. *)
Definition load (l : loc) : M obj := fun h =>
  match h !! l with
  | Some o => (Ok o, h)
  | None => (Raise SystemError, h)
  end.

Definition store (l : loc) (o : obj) : M unit := fun h => (Ok (), <[l := o]> h).

(** [isinstance(v, list)] *)
Definition isinstance_list (v : val) : M bool :=
  match v with
  | VRef l => o ← load l; mret (match o with OList _ => true | ODict _ => false end)
  | _ => mret false
  end.

Definition hashable (v : val) : bool :=
  match v with
  | VRef _ => false
  | _ => true
  end.

(** One element of the iterable handed to [dict(...)], unpacked into a key
    and a value: it must itself be an iterable of length two (iterating a
    str gives its characters, iterating a dict its keys), and the key must
    be hashable. *)
Definition pair_of (e : val) : M (val * val) :=
  match e with
  | VNone | VInt _ => raise TypeError
  | VStr (String a (String b EmptyString)) =>
      mret (VStr (Str.of_char a), VStr (Str.of_char b))
  | VStr _ => raise ValueError
  | VRef l =>
      o ← load l;
      match o with
      | OList [k; v] => if hashable k then mret (k, v) else raise TypeError
      | OList _ => raise ValueError
      | ODict [(k1, _); (k2, _)] => mret (k1, k2)
      | ODict _ => raise ValueError
      end
  end.

Fixpoint dict_of_pairs (es : list val) (acc : list (val * val))
  : M (list (val * val)) :=
  match es with
  | [] => mret acc
  | e :: es' => kv ← pair_of e; dict_of_pairs es' (dict_set kv.1 kv.2 acc)
  end.

(** [dict(v)]: a new dict object. From a dict it is a shallow copy (the
    same items, in a new object); from any other iterable the elements
    are taken as key/value pairs; [None] and ints are not iterable. *)
Definition py_dict (v : val) : M loc :=
  match v with
  | VNone | VInt _ => raise TypeError
  | VStr s =>
      items ← dict_of_pairs
        (map (fun c => VStr (Str.of_char c)) (list_ascii_of_string s)) [];
      alloc (ODict items)
  | VRef l =>
      o ← load l;
      match o with
      | ODict items => alloc (ODict items)
      | OList es => items ← dict_of_pairs es []; alloc (ODict items)
      end
  end.

(** [d.get(x)] on the dict at [d]: [None] when the key is absent. *)
Definition dict_get_method (d : loc) (x : string) : M val :=
  o ← load d;
  match o with
  | ODict items => mret (default VNone (dict_get (VStr x) items))
  | OList _ => raise AttributeError
  end.

(** [d.setdefault(x, dflt)] on the dict at [d]: the value under [x] when
    there is one, otherwise [dflt], which is first stored under [x] in
    the dict at [d]. *)
Definition dict_setdefault (d : loc) (x : string) (dflt : val) : M val :=
  o ← load d;
  match o with
  | ODict items =>
      match dict_get (VStr x) items with
      | Some v => mret v
      | None => store d (ODict (dict_set (VStr x) dflt items));; mret dflt
      end
  | OList _ => raise AttributeError
  end.

(** [v[i]] for a list [v] and an int [i >= 0]. *)
Definition list_getitem (v : val) (i : Z) : M val :=
  match v with
  | VRef l =>
      o ← load l;
      match o with
      | OList elems =>
          match elems !! Z.to_nat i with
          | Some e => mret e
          | None => raise IndexError
          end
      | ODict _ => raise TypeError
      end
  | _ => raise TypeError
  end.

(** [c[x]] for a str [x]: a key of a dict; lists and strs take no str
    index, [None] and ints are not subscriptable. *)
Definition getitem_str (c : val) (x : string) : M val :=
  match c with
  | VRef l =>
      o ← load l;
      match o with
      | ODict items =>
          match dict_get (VStr x) items with
          | Some v => mret v
          | None => raise (KeyError x)
          end
      | OList _ => raise TypeError
      end
  | _ => raise TypeError
  end.

(** [c[x] = value] for a str [x]. *)
Definition setitem_str (c : val) (x : string) (value : val) : M unit :=
  match c with
  | VRef l =>
      o ← load l;
      match o with
      | ODict items => store l (ODict (dict_set (VStr x) value items))
      | OList _ => raise TypeError
      end
  | _ => raise TypeError
  end.

(** [int(x)] for an all-digit [x]. *)
Definition int_of_digits (x : string) : Z := Str.digits_value 0 x.

(** ** update_in and get_in *)

(** [for x in segs: prev, dct = body(dct, x)]: the locals after the loop,
    [prev] and [x] being bound only once the body has run. *)
Fixpoint for_segments (body : val -> string -> M (val * val))
    (segs : list string) (bound : option (val * string)) (dct : val)
  : M (option (val * string) * val) :=
  match segs with
  | [] => mret (bound, dct)
  | x :: segs' =>
      r ← body dct x;
      for_segments body segs' (Some (r.1, x)) r.2
  end.

Definition update_in_step (dct : val) (x : string) : M (val * val) :=
  is_list ← (if Str.isdigit x then isinstance_list dct else mret false);
  if is_list : bool then
    v ← list_getitem dct (int_of_digits x);
    mret (dct, v)
  else
    copy ← py_dict dct;
    empty ← alloc (ODict []);
    v ← dict_setdefault copy x (VRef empty);
    mret (dct, v).

Definition update_in (dct : val) (path : string) (value : val) (sep : string)
  : M unit :=
  segs ← lift (Str.split path sep);
  r ← for_segments update_in_step segs None dct;
  match r.1 with
  | Some (prev, x) => setitem_str prev x value
  | None => raise UnboundLocalError
  end.

Definition get_in_step (dct : val) (x : string) : M (val * val) :=
  is_list ← (if Str.isdigit x then isinstance_list dct else mret false);
  if is_list : bool then
    v ← list_getitem dct (int_of_digits x);
    mret (dct, v)
  else
    copy ← py_dict dct;
    v ← dict_get_method copy x;
    mret (dct, v).

Definition get_in (dct : val) (path : string) (sep : string) : M val :=
  segs ← lift (Str.split path sep);
  r ← for_segments get_in_step segs None dct;
  match r.1 with
  | Some (prev, x) => getitem_str prev x
  | None => raise UnboundLocalError
  end.

(** The last statement of [get_in]. *)
Definition get_in_return (r : option (val * string) * val) : M val :=
  match r.1 with
  | Some (prev, x) => getitem_str prev x
  | None => raise UnboundLocalError
  end.

(** What the walk of [get_in] comes to on a tree of mappings, read off
    the store segment by segment: the value under the last key, a
    [KeyError] when the last key is absent, a [TypeError] when an earlier
    key is absent (the walk goes on from [None], which the next step
    cannot turn into a dict). [None] when a node the path reaches is not
    a mapping. *)
Fixpoint walk_mappings (h : heap) (node : val) (segs : list string)
  : option (result val) :=
  match segs with
  | [] => None
  | x :: segs' =>
      match node with
      | VRef l =>
          match h !! l with
          | Some (ODict items) =>
              match dict_get (VStr x) items, segs' with
              | Some v, [] => Some (Ok v)
              | None, [] => Some (Raise (KeyError x))
              | Some v, _ :: _ => walk_mappings h v segs'
              | None, _ :: _ => Some (Raise TypeError)
              end
          | _ => None
          end
      | _ => None
      end
  end.

(** ** product_block_paths

    The enumerator only reads its argument, so the tree is given as a
    value: atoms, dicts with str keys in insertion order, and lists. *)

Inductive pyval : Type :=
| PNone
| PInt (n : Z)
| PStr (s : string)
| PDict (items : list (string * pyval))
| PList (elems : list pyval).

(** [f"{k}.{k1}"] over what a nested generator yields. *)
Definition prefixed (k : string) (yielded : list (string * pyval))
  : list (string * pyval) :=
  map (fun kv => (k +:+ "." +:+ kv.1, kv.2)) yielded.

(** [list(get_dict_items(d))] for the dict [d]; any other value has no
    items to walk. The inner loops follow [d.items()] and [enumerate(v)]. *)
Fixpoint get_dict_items (d : pyval) : list (string * pyval) :=
  match d with
  | PDict items =>
      (fix over_items (items : list (string * pyval)) : list (string * pyval) :=
         match items with
         | [] => []
         | (k, v) :: items' =>
             match v with
             | PDict _ => prefixed k (get_dict_items v) ++ [(k, v)]
             | PList elems =>
                 (fix over_elems (index : nat) (elems : list pyval)
                    : list (string * pyval) :=
                    match elems with
                    | [] => []
                    | list_item :: elems' =>
                        match list_item with
                        | PDict _ =>
                            prefixed (k +:+ "." +:+ Str.of_nat index)
                              (get_dict_items list_item)
                            ++ [(k +:+ "." +:+ Str.of_nat index, list_item)]
                        | _ => []
                        end ++ over_elems (S index) elems'
                    end) O elems
             | _ => []
             end ++ over_items items'
         end) items
  | _ => []
  end.

(** [product_block_paths(subscription)] for a [subscription] that is
    already a dict. *)
Definition product_block_paths (subscription : pyval) : list string :=
  map fst (get_dict_items subscription).

(** ** The text-query sanitizer

    [shlex(q)] as [_process_text_query] configures it: the non-POSIX
    tokenizer of the standard library with [whitespace_split = True],
    the double quote as the only quote character, and the default
    whitespace (space, tab, carriage return, newline) and commenter (#).
    With these settings the word characters, the escape character and the
    push-back queue play no part. *)

Module Shlex.

(** The states of [read_token]: between tokens, in a word, in a
    quotation. *)
Inductive state : Type :=
| Whitespace
| Word
| Quoted.

Definition whitespace : string :=
  String " " (String Str.tab (String Str.cr (String Str.newline EmptyString))).
Definition commenters : string := "#".
Definition quotes : string := Str.of_char Str.quote_char.

(** Every token the iteration yields, or the [ValueError] of a quotation
    left open at the end of the input. [in_comment] is set while
    [instream.readline()] is dropping the rest of a line; [token] is the
    token read so far. A token is handed out when [read_token] breaks
    out of its loop; the iteration stops at the empty token of the end of
    the input. *)
Fixpoint tokens_from (st : state) (in_comment : bool) (token : string)
    (input : string) : result (list string) :=
  match input with
  | EmptyString =>
      match st with
      | Whitespace => Ok []
      | Word => Ok [token]
      | Quoted => Raise ValueError
      end
  | String nextchar input' =>
      if in_comment then
        tokens_from st (negb (Ascii.eqb nextchar Str.newline)) token input'
      else
        match st with
        | Whitespace =>
            if Str.mem_char nextchar whitespace then
              tokens_from Whitespace false EmptyString input'
            else if Str.mem_char nextchar commenters then
              tokens_from Whitespace true EmptyString input'
            else if Str.mem_char nextchar quotes then
              tokens_from Quoted false (Str.of_char nextchar) input'
            else
              tokens_from Word false (Str.of_char nextchar) input'
        | Quoted =>
            if Str.mem_char nextchar quotes then
              rest ← tokens_from Whitespace false EmptyString input';
              mret ((token +:+ Str.of_char nextchar) :: rest)
            else
              tokens_from Quoted false (token +:+ Str.of_char nextchar) input'
        | Word =>
            if Str.mem_char nextchar whitespace then
              rest ← tokens_from Whitespace false EmptyString input';
              mret (token :: rest)
            else if Str.mem_char nextchar commenters then
              tokens_from Word true token input'
            else
              tokens_from Word false (token +:+ Str.of_char nextchar) input'
        end
  end.

(** [list(lex)] for [lex = shlex(q)] set up as above. *)
Definition tokens (q : string) : result (list string) :=
  tokens_from Whitespace false EmptyString q.

End Shlex.

Definition _quote_if_kv_pair (token : string) : string :=
  if Str.contains ":" token
  then Str.of_char Str.quote_char +:+ token +:+ Str.of_char Str.quote_char
  else token.

(** [q] after the balancing step of [_process_text_query]. *)
Definition balance_quotes (q : string) : string :=
  if Nat.eqb (Nat.modulo (Str.count_char Str.quote_char q) 2) 1
  then q +:+ Str.of_char Str.quote_char
  else q.

(** The [try] catches [ValueError] only; any other exception of the
    tokenizer would pass through. *)
Definition _process_text_query (q : string) : result string :=
  let q := balance_quotes q in
  match Shlex.tokens q with
  | Ok toks => Ok (Str.join " " (map _quote_if_kv_pair toks))
  | Raise ValueError => Ok q
  | Raise e => Raise e
  end.

(** ** Parsing ints and UUIDs

    [int(s)] and [int(s, 16)] of the standard library, for a str: blanks
    around the literal, an optional sign, for base 16 an optional [0x]
    prefix, then digits that single underscores may separate. *)

Module Int.

Definition blanks : string :=
  String " " (String "009" (String "010" (String "011" (String "012"
    (String "013" EmptyString))))).

Definition digit_of (base : Z) (c : ascii) : option Z :=
  let n := Z.of_nat (nat_of_ascii c) in
  let d :=
    if (48 <=? n) && (n <=? 57) then Some (n - 48)
    else if (97 <=? n) && (n <=? 122) then Some (n - 87)
    else if (65 <=? n) && (n <=? 90) then Some (n - 55)
    else None in
  match d with
  | Some v => if v <? base then Some v else None
  | None => None
  end.

(** The digits of a literal: [seen] is whether a digit has been read,
    [after_underscore] whether the last character was an underscore.
    Returns the value and what follows the literal. *)
Fixpoint scan (base : Z) (seen after_underscore : bool) (acc : Z) (s : string)
  : option (Z * string) :=
  let stop := if seen && negb after_underscore then Some (acc, s) else None in
  match s with
  | EmptyString => stop
  | String c s' =>
      if Ascii.eqb c "_" then
        if seen && negb after_underscore then scan base seen true acc s'
        else None
      else
        match digit_of base c with
        | Some d => scan base true false (base * acc + d) s'
        | None => stop
        end
  end.

Definition strip_prefix (base : Z) (s : string) : string :=
  if base =? 16 then
    match s with
    | String "0" (String "x" s') | String "0" (String "X" s') =>
        match s' with
        | String "_" s'' => s''
        | _ => s'
        end
    | _ => s
    end
  else s.

Definition parse (base : Z) (s : string) : result Z :=
  let s := Str.lstrip blanks s in
  let signed :=
    match s with
    | String "+" s' => (1, s')
    | String "-" s' => (-1, s')
    | _ => (1, s)
    end in
  match scan base false false 0 (strip_prefix base signed.2) with
  | Some (n, rest) =>
      match Str.lstrip blanks rest with
      | EmptyString => Ok (signed.1 * n)
      | _ => Raise ValueError
      end
  | None => Raise ValueError
  end.

End Int.

(** A UUID is its 128-bit number. *)
Record UUID_t : Type := MkUUID { uuid_int : Z }.

#[export] Instance UUID_eq_dec : EqDecision UUID_t.
Proof. solve_decision. Defined.

(** [UUID(hex)] of the standard library for a str. *)
Definition UUID (hex : string) : result UUID_t :=
  let hex := Str.remove "uuid:" (Str.remove "urn:" hex) in
  let hex := Str.remove "-" (Str.strip "{}" hex) in
  if negb (Nat.eqb (String.length hex) 32) then Raise ValueError
  else
    n ← Int.parse 16 hex;
    if (0 <=? n) && (n <? 2 ^ 128) then Ok (MkUUID n) else Raise ValueError.

(** ** The query plan

    What [Query.filter], [join], [order_by] and [slice] build up, and what
    [count] and [all] return for it. *)

Inductive attribute : Type :=
| SubscriptionAttr (name : string)
| ProductAttr (name : string)
| SearchViewTsv.

Inductive entity : Type :=
| SubscriptionSearchView.

(** The SQL expressions the filter rules build. *)
Inductive criterion : Type :=
| Gt (a : attribute) (value : string)
| Ge (a : attribute) (value : string)
| Le (a : attribute) (value : string)
| Lt (a : attribute) (value : string)
| Ne (a : attribute) (value : string)
| Is (a : attribute) (b : bool)
| LowerIn (a : attribute) (values : list string)
| In_ (a : attribute) (values : list string)
| EqUUID (a : attribute) (u : UUID_t)
| WebsearchMatch (config text : string) (a : attribute)
| CastStringIlike (a : attribute) (pattern : string).

Inductive ordering : Type :=
| Asc (a : attribute)
| Desc (a : attribute).

Record Query : Type := MkQuery {
  q_joins : list entity;
  q_criteria : list criterion;
  q_order : list ordering;
  q_offset : Z;
  q_limit : option Z
}.

Definition Query_filter (q : Query) (c : criterion) : Query :=
  MkQuery (q_joins q) (q_criteria q ++ [c]) (q_order q) (q_offset q) (q_limit q).

Definition Query_join (q : Query) (e : entity) : Query :=
  MkQuery (q_joins q ++ [e]) (q_criteria q) (q_order q) (q_offset q) (q_limit q).

(** Each call adds a criterion after the ones already there. *)
Definition Query_order_by (q : Query) (o : ordering) : Query :=
  MkQuery (q_joins q) (q_criteria q) (q_order q ++ [o]) (q_offset q) (q_limit q).

(** [q.slice(start, stop)]: [start] more rows skipped, [stop - start]
    rows kept. *)
Definition Query_slice (q : Query) (start stop : Z) : Query :=
  MkQuery (q_joins q) (q_criteria q) (q_order q)
    (q_offset q + start) (Some (stop - start)).

(** The collaborator holding the records: the rows a set of joins yields,
    when a row meets a criterion, and how two rows compare on an
    attribute. *)
Record Store : Type := MkStore {
  row : Type;
  source : list entity -> list row;
  holds : criterion -> row -> bool;
  compare_by : attribute -> row -> row -> comparison
}.

Section Execution.
Context (db : Store).

(** The criteria of a query are taken together: a row is kept when it
    meets every one of them. *)
Definition matching (q : Query) : list (row db) :=
  List.filter (fun r => forallb (fun c => holds db c r) (q_criteria q))
    (source db (q_joins q)).

(** The first criterion decides; a later one only breaks the ties the
    earlier ones leave. *)
Fixpoint compare_rows (order : list ordering) (r1 r2 : row db) : comparison :=
  match order with
  | [] => Eq
  | o :: order' =>
      let c :=
        match o with
        | Asc a => compare_by db a r1 r2
        | Desc a => CompOpp (compare_by db a r1 r2)
        end in
      match c with
      | Eq => compare_rows order' r1 r2
      | _ => c
      end
  end.

Fixpoint insert_row (order : list ordering) (r : row db) (l : list (row db))
  : list (row db) :=
  match l with
  | [] => [r]
  | r' :: l' =>
      match compare_rows order r r' with
      | Datatypes.Gt => r' :: insert_row order r l'
      | _ => r :: l
      end
  end.

Definition sort_rows (order : list ordering) (l : list (row db)) : list (row db) :=
  foldr (insert_row order) [] l.

(** Offsets and limits below zero are read as zero here; what a store
    does with them is its own matter. *)
Definition window (q : Query) (l : list (row db)) : list (row db) :=
  let l := drop (Z.to_nat (q_offset q)) l in
  match q_limit q with
  | Some n => take (Z.to_nat n) l
  | None => l
  end.

(** [q.all()] *)
Definition Query_all (q : Query) : list (row db) :=
  window q (sort_rows (q_order q) (matching q)).

(** [q.count()]: the number of rows the query returns. *)
Definition Query_count (q : Query) : Z := Z.of_nat (length (Query_all q)).

End Execution.

(** ** The response *)

(** Header names are case-insensitive: the headers are kept under their
    lower-cased names, one value each. *)
Record Response : Type := MkResponse { headers : gmap string string }.

Definition set_header (response : Response) (key value : string) : Response :=
  MkResponse (<[Str.lower key := value]> (headers response)).

Definition get_header (response : Response) (key : string) : option string :=
  headers response !! Str.lower key.

(** Modelled from the spec: [raise_status] of
    [orchestrator.api.error_handling], which is not part of the sources;
    the spec has it fail the whole operation with an error that carries
    the HTTP status and the message. *)
Definition raise_status {A} (status : Z) (detail : string) : result A :=
  Raise (HTTPError status detail).

Definition BAD_REQUEST : Z := 400.

(** ** _query_with_filters *)

(** [SubscriptionTable.__dict__] and [ProductTable.__dict__]: the names
    the two classes define. The classes themselves are not part of the
    sources. Not every entry of [SubscriptionTable.__dict__] is a column:
    a mapped class holds its relationships there as well (as [product]),
    and its other attributes. [SubscriptionTable_columns] are the names
    whose entry is a column, on which a comparison or a cast builds the
    criterion. What the same expression does on any other entry is the
    class's own matter, [SubscriptionTable_other]: it may raise, as [!=]
    with a str does on a relationship. *)
Record Schema : Type := MkSchema {
  SubscriptionTable_dict : list string;
  ProductTable_dict : list string;
  SubscriptionTable_columns : list string;
  SubscriptionTable_other : criterion -> result criterion
}.

(** [more_itertools.chunked(l, 2)] *)
Fixpoint chunked2 {A} (l : list A) : list (list A) :=
  match l with
  | [] => []
  | [a] => [[a]]
  | a :: b :: l' => [a; b] :: chunked2 l'
  end.

(** An element of [range]: an int, or a str still to be parsed. *)
Inductive range_item : Type :=
| RInt (n : Z)
| RStr (s : string).

(** [int(r)] *)
Definition int (r : range_item) : result Z :=
  match r with
  | RInt n => Ok n
  | RStr s => Int.parse 10 s
  end.

Section QueryWithFilters.
Context (schema : Schema) (db : Store).

(** [SubscriptionTable.__dict__[name]] *)
Definition SubscriptionTable_getitem (name : string) : result attribute :=
  if bool_decide (name ∈ SubscriptionTable_dict schema)
  then Ok (SubscriptionAttr name)
  else Raise (KeyError name).

(** [ProductTable.__dict__[name]] *)
Definition ProductTable_getitem (name : string) : result attribute :=
  if bool_decide (name ∈ ProductTable_dict schema)
  then Ok (ProductAttr name)
  else Raise (KeyError name).

(** An expression over an entry of [SubscriptionTable.__dict__], as
    [entry > value] or [cast(entry, String).ilike(pattern)]: the
    criterion [c] when the entry is a column. *)
Definition criterion_on (a : attribute) (c : criterion) : result criterion :=
  match a with
  | SubscriptionAttr name =>
      if bool_decide (name ∈ SubscriptionTable_columns schema) then Ok c
      else SubscriptionTable_other schema c
  | _ => Ok c
  end.

Definition truthy : list string :=
  ["yes"; "y"; "ye"; "true"; "1"; "ja"; "insync"].

Definition organisation_msg : string :=
  "Not a valid customer_id, must be a UUID: '{value}'".

(** The body of the loop over the filter pairs, for one pair. The test
    [value is not None] holds for every str and is left out. *)
Definition apply_filter (query : Query) (field value : string) : result Query :=
  let value_as_bool := bool_decide (Str.lower value ∈ truthy) in
  if Str.endswith field "_gt" then
    a ← SubscriptionTable_getitem (Str.drop_last 3 field);
    c ← criterion_on a (Gt a value);
    mret (Query_filter query c)
  else if Str.endswith field "_gte" then
    a ← SubscriptionTable_getitem (Str.drop_last 4 field);
    c ← criterion_on a (Ge a value);
    mret (Query_filter query c)
  else if Str.endswith field "_lte" then
    a ← SubscriptionTable_getitem (Str.drop_last 4 field);
    c ← criterion_on a (Le a value);
    mret (Query_filter query c)
  else if Str.endswith field "_lt" then
    a ← SubscriptionTable_getitem (Str.drop_last 3 field);
    c ← criterion_on a (Lt a value);
    mret (Query_filter query c)
  else if Str.endswith field "_ne" then
    a ← SubscriptionTable_getitem (Str.drop_last 3 field);
    c ← criterion_on a (Ne a value);
    mret (Query_filter query c)
  else if String.eqb field "insync" then
    mret (Query_filter query (Is (SubscriptionAttr "insync") value_as_bool))
  else if String.eqb field "tags" then
    sub_values ← Str.split value "-";
    mret (Query_filter query (LowerIn (ProductAttr "tag") (map Str.lower sub_values)))
  else if String.eqb field "tag" then
    sub_values ← Str.split value "-";
    mret (Query_filter query (LowerIn (ProductAttr "tag") (map Str.lower sub_values)))
  else if String.eqb field "product" then
    sub_values ← Str.split value "-";
    mret (Query_filter query (LowerIn (ProductAttr "name") (map Str.lower sub_values)))
  else if String.eqb field "status" then
    statuses ← Str.split value "-";
    mret (Query_filter query (In_ (SubscriptionAttr "status") (map Str.lower statuses)))
  else if String.eqb field "statuses" then
    sub_values ← Str.split value "-";
    mret (Query_filter query (In_ (SubscriptionAttr "status") (map Str.lower sub_values)))
  else if String.eqb field "organisation" then
    match UUID value with
    | Ok value_as_uuid =>
        mret (Query_filter query (EqUUID (SubscriptionAttr "customer_id") value_as_uuid))
    | Raise ValueError | Raise AttributeError =>
        raise_status BAD_REQUEST organisation_msg
    | Raise e => Raise e
    end
  else if String.eqb field "tsv" then
    processed_text_query ← _process_text_query value;
    mret (Query_filter (Query_join query SubscriptionSearchView)
            (WebsearchMatch "simple" processed_text_query SearchViewTsv))
  else if bool_decide (field ∈ SubscriptionTable_dict schema) then
    a ← SubscriptionTable_getitem field;
    c ← criterion_on a (CastStringIlike a ("%" +:+ value +:+ "%"));
    mret (Query_filter query c)
  else mret query.

(** [for filter in chunked(filters, 2)] *)
Fixpoint apply_filters (query : Query) (chunks : list (list string))
  : result Query :=
  match chunks with
  | [] => Ok query
  | filter :: chunks' =>
      query ← match filter with
              | [field; value] => apply_filter query field value
              | _ => Ok query
              end;
      apply_filters query chunks'
  end.

(** The body of the loop over the sort pairs, for one pair. *)
Definition apply_sort (query : Query) (key direction : string) : result Query :=
  if bool_decide (key ∈ ["product"; "tag"]) then
    let field := if String.eqb key "product" then "name" else "tag" in
    if String.eqb (Str.upper direction) "DESC" then
      a ← ProductTable_getitem field;
      mret (Query_order_by query (Desc a))
    else
      a ← ProductTable_getitem field;
      mret (Query_order_by query (Asc a))
  else
    if String.eqb (Str.upper direction) "DESC" then
      a ← SubscriptionTable_getitem key;
      mret (Query_order_by query (Desc a))
    else
      a ← SubscriptionTable_getitem key;
      mret (Query_order_by query (Asc a)).

(** [for item in chunked(sort, 2)] *)
Fixpoint apply_sorts (query : Query) (chunks : list (list string))
  : result Query :=
  match chunks with
  | [] => Ok query
  | item :: chunks' =>
      query ← match item with
              | [key; direction] => apply_sort query key direction
              | _ => Ok query
              end;
      apply_sorts query chunks'
  end.

(** The [try] block of the range step: both bounds as ints, the first
    below the second. *)
Definition range_bounds (r0 r1 : range_item) : result (Z * Z) :=
  range_start ← int r0;
  range_end ← int r1;
  if range_start >=? range_end then Raise ValueError
  else Ok (range_start, range_end).

Definition content_range (range_start range_end total : Z) : string :=
  "subscriptions " +:+ Str.of_Z range_start +:+ "-" +:+ Str.of_Z range_end
    +:+ "/" +:+ Str.of_Z total.

(** The filter step of [_query_with_filters]. *)
Definition filter_step (query : Query) (filters : option (list string))
  : result Query :=
  match filters with
  | Some filters => apply_filters query (chunked2 filters)
  | None => Ok query
  end.

(** The sort step of [_query_with_filters]. *)
Definition sort_step (query : Query) (sort : option (list string))
  : result Query :=
  match sort with
  | Some sort =>
      if (2 <=? length sort)%nat then apply_sorts query (chunked2 sort)
      else Ok query
  | None => Ok query
  end.

(** The range step of [_query_with_filters] and its [return]: the rows,
    and the response with the header it may have been given. *)
Definition range_step (response : Response) (query : Query)
    (range : option (list range_item)) : result (list (row db) * Response) :=
  match range with
  | Some [r0; r1] =>
      match range_bounds r0 r1 with
      | Ok (range_start, range_end) =>
          let total := Query_count db query in
          let query := Query_slice query range_start range_end in
          let response :=
            set_header response "Content-Range"
              (content_range range_start range_end total) in
          Ok (Query_all db query, response)
      | Raise ValueError | Raise AssertionError =>
          raise_status BAD_REQUEST "Invalid range parameters"
      | Raise e => Raise e
      end
  | _ => Ok (Query_all db query, response)
  end.

Definition _query_with_filters (response : Response) (query : Query)
    (range : option (list range_item)) (sort : option (list string))
    (filters : option (list string)) : result (list (row db) * Response) :=
  query ← filter_step query filters;
  query ← sort_step query sort;
  range_step response query range.

End QueryWithFilters.

(** The names [helpers.py] itself reads off a subscription and off its
    product, as a schema for the examples. All of them are columns but
    [product], the relationship from a subscription to its product, on
    which a comparison with a str raises. *)
Definition example_schema : Schema :=
  MkSchema
    ["customer_id"; "description"; "end_date"; "insync"; "start_date";
     "status"; "subscription_id"; "product"]
    ["product_id"; "description"; "name"; "tag"; "status"; "product_type"]
    ["customer_id"; "description"; "end_date"; "insync"; "start_date";
     "status"; "subscription_id"]
    (fun _ => Raise AttributeError).

(** Twenty-five records, numbered, every one meeting every criterion. *)
Definition example_store : Store :=
  MkStore nat (fun _ => seq 0 25) (fun _ _ => true) (fun _ => Nat.compare).

Definition empty_query : Query := MkQuery [] [] [] 0 None.
Definition empty_response : Response := MkResponse ∅.

(** The tree of the specification's example,
    [{a: {b: 1}, c: [{d: 2}, 3]}]. *)
Definition example_tree : pyval :=
  PDict [("a", PDict [("b", PInt 1)]);
         ("c", PList [PDict [("d", PInt 2)]; PInt 3])].

(** Atoms: the values that are neither a dict nor a list. *)
Definition is_atom (v : pyval) : bool :=
  match v with
  | PDict _ | PList _ => false
  | _ => true
  end.

(** A one-character str holding the double quote. *)
Definition dquote : string := Str.of_char Str.quote_char.

(** A query with three double quotes, the last of which closes a
    quotation: [x' 'a'] with the double quote for each ['] . *)
Definition unbalanced_query : string :=
  "x" +:+ dquote +:+ " " +:+ dquote +:+ "a" +:+ dquote.

(** Characters that neither end a word nor start a comment or a
    quotation, and words made of them. *)
Definition plain_char (c : ascii) : bool :=
  negb (Str.mem_char c Shlex.whitespace)
  && negb (Str.mem_char c Shlex.commenters)
  && negb (Str.mem_char c Shlex.quotes).

Definition plain_word (w : string) : bool :=
  match w with
  | EmptyString => false
  | _ => Str.all_chars plain_char w
  end.

(** The attribute name a comparison suffix leaves, for a field that
    carries one; the suffixes are tried in the order of the filter
    rules. *)
Definition unsuffixed (field : string) : option string :=
  if Str.endswith field "_gt" then Some (Str.drop_last 3 field)
  else if Str.endswith field "_gte" then Some (Str.drop_last 4 field)
  else if Str.endswith field "_lte" then Some (Str.drop_last 4 field)
  else if Str.endswith field "_lt" then Some (Str.drop_last 3 field)
  else if Str.endswith field "_ne" then Some (Str.drop_last 3 field)
  else None.


(** The ordering the specification gives for a sort pair: [product] and
    [tag] stand for the name and the tag of the joined product, any
    other key for the attribute of that name of the subscription;
    descending when the direction is [DESC] in any case of letters,
    ascending otherwise. *)
Definition sort_criterion (kd : string * string) : ordering :=
  let a :=
    if String.eqb kd.1 "product" then ProductAttr "name"
    else if String.eqb kd.1 "tag" then ProductAttr "tag"
    else SubscriptionAttr kd.1 in
  if String.eqb (Str.upper kd.2) "DESC" then Desc a else Asc a.



(** Two queries with the same offset and the same limit. *)
Definition same_window (q q' : Query) : Prop :=
  q_offset q' = q_offset q /\ q_limit q' = q_limit q.

(** ** Reading the store along a path *)

(** Where the segments of a path lead from a node, read off the store:
    any segment is a key of a dict, an all-digit segment an index of a
    list. [None] when a key or an index is missing, or when a segment
    meets anything else. *)
Fixpoint descend (h : heap) (node : val) (segs : list string) : option val :=
  match segs with
  | [] => Some node
  | x :: segs' =>
      match node with
      | VRef l =>
          match h !! l with
          | Some (ODict items) =>
              match dict_get (VStr x) items with
              | Some v => descend h v segs'
              | None => None
              end
          | Some (OList elems) =>
              if Str.isdigit x then
                match elems !! Z.to_nat (int_of_digits x) with
                | Some e => descend h e segs'
                | None => None
                end
              else None
          | None => None
          end
      | _ => None
      end
  end.

(** Computations that leave the store as it is, and computations that
    only add objects to it. *)
Definition unchanging {A} (m : M A) : Prop := forall h, (m h).2 = h.

Definition growing {A} (m : M A) : Prop :=
  forall h, exists g, (m h).2 = h ++ g.

(** A loop body that follows [descend] by one segment, adding at most
    new objects to the store. *)
Definition follows (body : val -> string -> M (val * val)) : Prop :=
  forall h node x v,
    descend h node [x] = Some v ->
    exists g, body node x h = (Ok (node, v), h ++ g).


(** ** Shapes of text queries *)

(** Strs of whitespace only. *)
Definition blank (s : string) : bool :=
  Str.all_chars (fun c => Str.mem_char c Shlex.whitespace) s.

(** A word, then gaps and words in turn. *)
Fixpoint interleave (w : string) (rest : list (string * string)) : string :=
  match rest with
  | [] => w
  | gw :: rest' => w +:+ gw.1 +:+ interleave gw.2 rest'
  end.


(** ** The filter and sort rules, from outside *)

(** The field names that have a filter rule of their own. *)
Definition special_fields : list string :=
  ["insync"; "tags"; "tag"; "product"; "status"; "statuses"; "organisation";
   "tsv"].

(** The fields whose value is a truth value or a list of names. *)
Definition folded_fields : list string :=
  ["insync"; "tags"; "tag"; "product"; "status"; "statuses"].

(** [q'] is [q] with joins, criteria and orderings added after those it
    had, and with the offset and the limit it had. *)
Definition extends_query (q q' : Query) : Prop :=
  q_joins q `prefix_of` q_joins q' /\
  q_criteria q `prefix_of` q_criteria q' /\
  q_order q `prefix_of` q_order q' /\
  same_window q q'.

(** Two strs that differ at a place both of them have. *)
Fixpoint differ (s p : string) : bool :=
  match s, p with
  | String a s', String b p' => negb (Ascii.eqb b a) || differ s' p'
  | _, _ => false
  end.


(** ** getattr_in

    [getattr_in] only reads, and it takes any object: a list, a dict
    (with str keys), [None], or an object of another class, which is given
    by what [getattr] finds on it under each name. The attributes of
    [None] itself are a parameter. *)

Inductive pyobj : Type :=
| GNone
| GList (elems : list pyobj)
| GDict (items : list (string * pyobj))
| GObject (attrs : string -> option pyobj).

(** [d.get(key)] without the default: the value of the first item under
    the key. *)
Fixpoint assoc {A} (key : string) (items : list (string * A)) : option A :=
  match items with
  | [] => None
  | kv :: items' => if String.eqb kv.1 key then Some kv.2 else assoc key items'
  end.

(** [elems[i]] for an int [i]: from the end when [i] is negative. *)
Definition list_index (elems : list pyobj) (i : Z) : result pyobj :=
  let n := Z.of_nat (length elems) in
  let j := if i <? 0 then i + n else i in
  if (0 <=? j) && (j <? n) then
    match elems !! Z.to_nat j with
    | Some e => Ok e
    | None => Raise IndexError
    end
  else Raise IndexError.

(** [functools.reduce(f, [acc] + segs)] for an [f] that may raise. *)
Fixpoint reduce (f : pyobj -> string -> result pyobj) (acc : pyobj)
    (segs : list string) : result pyobj :=
  match segs with
  | [] => Ok acc
  | s :: segs' => acc' ← f acc s; reduce f acc' segs'
  end.

Section GetattrIn.
Context (NoneType_attrs : string -> option pyobj).

Definition _getattr (obj : pyobj) (attr : string) : result pyobj :=
  match obj with
  | GList elems => i ← Int.parse 10 attr; list_index elems i
  | GDict items => Ok (default GNone (assoc attr items))
  | GObject attrs => Ok (default GNone (attrs attr))
  | GNone => Ok (default GNone (NoneType_attrs attr))
  end.

Definition getattr_in (obj : pyobj) (attr : string) : result pyobj :=
  segs ← Str.split attr ".";
  reduce _getattr obj segs.

End GetattrIn.


(** ** Paths in a tree given as a value *)

(** Where the segments of a path lead in a tree: any segment is a key of
    a dict, an all-digit segment an index of a list. *)
Fixpoint descend_tree (v : pyval) (segs : list string) : option pyval :=
  match segs with
  | [] => Some v
  | x :: segs' =>
      match v with
      | PDict items =>
          match assoc x items with
          | Some v' => descend_tree v' segs'
          | None => None
          end
      | PList elems =>
          if Str.isdigit x then
            match elems !! Z.to_nat (int_of_digits x) with
            | Some e => descend_tree e segs'
            | None => None
            end
          else None
      | _ => None
      end
  end.

(** Trees in which every dict has its keys once each and no key holds a
    dot. *)
Fixpoint well_keyed (v : pyval) : Prop :=
  match v with
  | PDict items =>
      NoDup (map fst items) /\
      (fix all (items : list (string * pyval)) : Prop :=
         match items with
         | [] => True
         | (k, v') :: items' =>
             Str.mem_char "." k = false /\ well_keyed v' /\ all items'
         end) items
  | PList elems =>
      (fix all (elems : list pyval) : Prop :=
         match elems with
         | [] => True
         | e :: elems' => well_keyed e /\ all elems'
         end) elems
  | _ => True
  end.

(** The paths that the elements of a list under the key [k] give, from
    the index [index] on. *)
Fixpoint elem_paths (k : string) (index : nat) (elems : list pyval)
  : list string :=
  match elems with
  | [] => []
  | e :: elems' =>
      match e with
      | PDict _ =>
          map (fun p => (k +:+ "." +:+ Str.of_nat index) +:+ "." +:+ p)
            (product_block_paths e)
          ++ [k +:+ "." +:+ Str.of_nat index]
      | _ => []
      end ++ elem_paths k (S index) elems'
  end.

(** * Properties *)

(** ** Strings *)

Lemma append_cons (x : ascii) (a b : string) :
  String x a +:+ b = String x (a +:+ b).
Proof. reflexivity. Qed.

Lemma append_empty_l (a : string) : EmptyString +:+ a = a.
Proof. reflexivity. Qed.

Lemma append_assoc (a b c : string) : (a +:+ b) +:+ c = a +:+ (b +:+ c).
Proof.
  induction a as [|x a IH]; [reflexivity|].
  by rewrite !append_cons, IH.
Qed.

Lemma append_empty_r (a : string) : a +:+ EmptyString = a.
Proof.
  induction a as [|x a IH]; [reflexivity|].
  by rewrite append_cons, IH.
Qed.

Lemma digit_is_not_dot (c : ascii) :
  Str.is_digit_char c = true -> Ascii.eqb "." c = false.
Proof.
  intros Hc. destruct (Ascii.eqb_spec "." c) as [<-|]; [discriminate | reflexivity].
Qed.

Lemma startswith_dot (c : ascii) (s : string) :
  Str.startswith (String c s) "." = Ascii.eqb "." c.
Proof.
  cbn [Str.startswith]. destruct s; apply andb_true_r.
Qed.

Lemma split_from_digits (cur s : string) :
  Str.all_chars Str.is_digit_char s = true ->
  Str.split_from "." O cur s = [cur +:+ s].
Proof.
  revert cur. induction s as [|c s IH]; intros cur Hs.
  - by rewrite append_empty_r.
  - simpl in Hs. apply andb_prop in Hs as [Hc Hs].
    cbn [Str.split_from]. rewrite startswith_dot, (digit_is_not_dot _ Hc).
    rewrite (IH _ Hs), append_assoc. reflexivity.
Qed.

(** An all-digit path is a single segment. *)
Lemma split_digits (x : string) :
  Str.isdigit x = true -> Str.split x "." = Ok [x].
Proof.
  intros Hx. unfold Str.split. simpl. f_equal.
  destruct x as [|c x]; [discriminate|].
  by rewrite (split_from_digits EmptyString).
Qed.

(** [split], [str] and the suffix test on a few inputs. *)
Example split_dotted : Str.split "a.b.c" "." = Ok ["a"; "b"; "c"].
Proof. reflexivity. Qed.
Example split_empty : Str.split "" "." = Ok [""].
Proof. reflexivity. Qed.
Example split_trailing : Str.split "a." "." = Ok ["a"; ""].
Proof. reflexivity. Qed.
Example split_wide_separator : Str.split "a::b::" "::" = Ok ["a"; "b"; ""].
Proof. reflexivity. Qed.
Example of_Z_negative : Str.of_Z (-12) = "-12".
Proof. reflexivity. Qed.
Example of_Z_zero : Str.of_Z 0 = "0".
Proof. reflexivity. Qed.
Example endswith_gt : Str.endswith "start_date_gt" "_gt" = true.
Proof. reflexivity. Qed.
Example drop_last_gt : Str.drop_last 3 "start_date_gt" = "start_date".
Proof. reflexivity. Qed.

(** ** The store *)

Lemma bind_Ok {A B} (m : M A) (k : A -> M B) (h h' : heap) (a : A) :
  m h = (Ok a, h') -> (m ≫= k) h = k a h'.
Proof. intros H. unfold mbind, M_bind. by rewrite H. Qed.

Lemma bind_Raise {A B} (m : M A) (k : A -> M B) (h h' : heap) (e : exn) :
  m h = (Raise e, h') -> (m ≫= k) h = (Raise e, h').
Proof. intros H. unfold mbind, M_bind. by rewrite H. Qed.

Lemma bind_assoc {A B C} (m : M A) (k1 : A -> M B) (k2 : B -> M C) (h : heap) :
  ((m ≫= k1) ≫= k2) h = (m ≫= (fun a => k1 a ≫= k2)) h.
Proof. unfold mbind, M_bind. by destruct (m h) as [[a|e] h']. Qed.

Lemma load_at (h : heap) (l : loc) (o : obj) :
  h !! l = Some o -> load l h = (Ok o, h).
Proof. intros H. unfold load. by rewrite H. Qed.

Lemma isinstance_list_at (h : heap) (l : loc) (o : obj) :
  h !! l = Some o ->
  isinstance_list (VRef l) h =
    (Ok (match o with OList _ => true | ODict _ => false end), h).
Proof.
  intros H. unfold isinstance_list. by rewrite (bind_Ok _ _ _ _ _ (load_at _ _ _ H)).
Qed.

Lemma list_getitem_at (h : heap) (l : loc) (elems : list val) (i : Z) :
  h !! l = Some (OList elems) ->
  list_getitem (VRef l) i h =
    (match elems !! Z.to_nat i with
     | Some e => Ok e
     | None => Raise IndexError
     end, h).
Proof.
  intros H. unfold list_getitem. rewrite (bind_Ok _ _ _ _ _ (load_at _ _ _ H)).
  by destruct (elems !! Z.to_nat i).
Qed.

Lemma getitem_str_at (h : heap) (l : loc) (o : obj) (x : string) :
  h !! l = Some o ->
  getitem_str (VRef l) x h =
    (match o with
     | ODict items =>
         match dict_get (VStr x) items with
         | Some v => Ok v
         | None => Raise (KeyError x)
         end
     | OList _ => Raise TypeError
     end, h).
Proof.
  intros H. unfold getitem_str. rewrite (bind_Ok _ _ _ _ _ (load_at _ _ _ H)).
  destruct o as [items|]; [|reflexivity]. by destruct (dict_get _ _).
Qed.

(** One step of the walk of [get_in] at a list, for an all-digit
    segment. *)
Lemma get_in_step_list (h : heap) (l : loc) (elems : list val) (x : string) :
  h !! l = Some (OList elems) ->
  Str.isdigit x = true ->
  get_in_step (VRef l) x h =
    (match elems !! Z.to_nat (int_of_digits x) with
     | Some e => Ok (VRef l, e)
     | None => Raise IndexError
     end, h).
Proof.
  intros Hl Hx. unfold get_in_step. rewrite Hx.
  rewrite (bind_Ok _ _ _ _ _ (isinstance_list_at _ _ _ Hl)).
  destruct (elems !! Z.to_nat (int_of_digits x)) as [e|] eqn:He.
  - erewrite bind_Ok; [reflexivity|]. by rewrite (list_getitem_at _ _ _ _ Hl), He.
  - erewrite bind_Raise; [reflexivity|]. by rewrite (list_getitem_at _ _ _ _ Hl), He.
Qed.

(** C2: on a list, an all-digit path never yields the element: the walk
    indexes the list by the int, an index past the end is an
    [IndexError], and for an index in range the final [prev[x]] indexes
    the list by the str and is a [TypeError]. *)
Theorem get_in_list_digit_segment (h : heap) (l : loc) (elems : list val)
    (x : string) :
  h !! l = Some (OList elems) ->
  Str.isdigit x = true ->
  get_in (VRef l) x "." h =
    (match elems !! Z.to_nat (int_of_digits x) with
     | Some _ => Raise TypeError
     | None => Raise IndexError
     end, h).
Proof.
  intros Hl Hx. unfold get_in.
  erewrite bind_Ok; [|unfold lift; by rewrite (split_digits _ Hx)].
  cbn [for_segments].
  pose proof (get_in_step_list h l elems x Hl Hx) as Hstep.
  destruct (elems !! Z.to_nat (int_of_digits x)) as [e|].
  - erewrite bind_Ok; [|erewrite bind_Ok; [reflexivity|exact Hstep]].
    cbn [fst snd]. by rewrite (getitem_str_at _ _ _ _ Hl).
  - erewrite bind_Raise; [reflexivity|]. erewrite bind_Raise; [reflexivity|exact Hstep].
Qed.

Lemma get_in_list_digit_segment_witness :
  get_in (VRef 0%nat) "1" "." [OList [VInt 10; VInt 20; VInt 30]]
  = (Raise TypeError, [OList [VInt 10; VInt 20; VInt 30]]).
Proof.
  exact (get_in_list_digit_segment
           [OList [VInt 10; VInt 20; VInt 30]] 0%nat
           [VInt 10; VInt 20; VInt 30] "1" eq_refl eq_refl).
Defined.

Example get_in_list_out_of_range :
  get_in (VRef 0%nat) "5" "." [OList [VInt 10; VInt 20; VInt 30]]
  = (Raise IndexError, [OList [VInt 10; VInt 20; VInt 30]]).
Proof. reflexivity. Qed.

(** ** Walks over mappings *)

Lemma lookup_fresh (h : heap) (o : obj) (k : heap) :
  (h ++ o :: k) !! length h = Some o.
Proof. by apply list_lookup_middle. Qed.

Lemma py_dict_at_dict (h : heap) (l : loc) (items : list (val * val)) :
  h !! l = Some (ODict items) ->
  py_dict (VRef l) h = (Ok (length h), h ++ [ODict items]).
Proof.
  intros H. unfold py_dict. by rewrite (bind_Ok _ _ _ _ _ (load_at _ _ _ H)).
Qed.

Lemma dict_test_is_dict (h : heap) (l : loc) (items : list (val * val))
    (x : string) :
  h !! l = Some (ODict items) ->
  (if Str.isdigit x then isinstance_list (VRef l) else mret false) h
  = (Ok false, h).
Proof.
  intros H. destruct (Str.isdigit x); [|reflexivity].
  by rewrite (isinstance_list_at _ _ _ H).
Qed.

(** One step of the walk of [get_in] at a dict: the key is looked up in
    a copy, and [None] stands in for an absent key. *)
Lemma get_in_step_dict (h : heap) (l : loc) (items : list (val * val))
    (x : string) :
  h !! l = Some (ODict items) ->
  get_in_step (VRef l) x h =
    (Ok (VRef l, default VNone (dict_get (VStr x) items)), h ++ [ODict items]).
Proof.
  intros H. unfold get_in_step.
  rewrite (bind_Ok _ _ _ _ _ (dict_test_is_dict _ _ _ x H)).
  rewrite (bind_Ok _ _ _ _ _ (py_dict_at_dict _ _ _ H)).
  unfold dict_get_method.
  erewrite bind_Ok; [reflexivity|].
  erewrite bind_Ok; [|apply load_at, lookup_fresh]. reflexivity.
Qed.

(** From [None] the walk cannot go on. *)
Lemma get_in_step_None (h : heap) (x : string) :
  get_in_step VNone x h = (Raise TypeError, h).
Proof. unfold get_in_step. by destruct (Str.isdigit x). Qed.

Lemma get_in_walk (segs : list string) :
  forall (h0 h : heap) (node : val) (bound : option (val * string))
         (r : result val),
    h0 `prefix_of` h ->
    walk_mappings h0 node segs = Some r ->
    ((for_segments get_in_step segs bound node ≫= get_in_return) h).1 = r.
Proof.
  induction segs as [|x segs IH]; intros h0 h node bound r Hpre Hwalk;
    [discriminate|].
  cbn [walk_mappings] in Hwalk.
  destruct node as [| | |l]; try discriminate.
  destruct (h0 !! l) as [[items|]|] eqn:Hl; try discriminate.
  pose proof (prefix_lookup_Some _ _ _ _ Hl Hpre) as Hl'.
  pose proof (get_in_step_dict h l items x Hl') as Hstep.
  assert (h0 `prefix_of` (h ++ [ODict items])) as Hpre'
    by (etrans; [exact Hpre | by apply prefix_app_r]).
  cbn [for_segments].
  rewrite bind_assoc, (bind_Ok _ _ _ _ _ Hstep).
  cbn [fst snd].
  destruct segs as [|y segs].
  - cbn [for_segments]. erewrite bind_Ok; [|reflexivity].
    unfold get_in_return. cbn [fst snd].
    rewrite (getitem_str_at _ _ _ _ (prefix_lookup_Some _ _ _ _ Hl Hpre')).
    destruct (dict_get (VStr x) items); by simplify_eq.
  - destruct (dict_get (VStr x) items) as [v|].
    + cbn [default]. by eapply IH.
    + simplify_eq. cbn [default for_segments].
      rewrite bind_assoc.
      by rewrite (bind_Raise _ _ _ _ _ (get_in_step_None _ _)).
Qed.

Lemma get_in_by_segments (tree : val) (path sep : string) (segs : list string)
    (h : heap) :
  Str.split path sep = Ok segs ->
  get_in tree path sep h
  = (for_segments get_in_step segs None tree ≫= get_in_return) h.
Proof.
  intros Hsplit. unfold get_in. erewrite bind_Ok; [|unfold lift; by rewrite Hsplit].
  reflexivity.
Qed.

(** C3, as amended: on a tree of mappings [get_in] returns the value when
    every key of the path is present; it fails with a [KeyError] when the
    last key is absent, and with a [TypeError] when an earlier key is
    absent. *)
Theorem get_in_on_mappings (h : heap) (tree : val) (path sep : string)
    (segs : list string) (r : result val) :
  Str.split path sep = Ok segs ->
  walk_mappings h tree segs = Some r ->
  (get_in tree path sep h).1 = r.
Proof.
  intros Hsplit Hwalk. rewrite (get_in_by_segments _ _ _ _ _ Hsplit).
  by eapply get_in_walk.
Qed.

Lemma get_in_on_mappings_witness :
  (get_in (VRef 0%nat) "a.b" "."
     [ODict [(VStr "a", VRef 1%nat)]; ODict [(VStr "b", VInt 7)]]).1
  = Ok (VInt 7).
Proof.
  exact (get_in_on_mappings
           [ODict [(VStr "a", VRef 1%nat)]; ODict [(VStr "b", VInt 7)]]
           (VRef 0%nat) "a.b" "." ["a"; "b"] (Ok (VInt 7)) eq_refl eq_refl).
Defined.

(** C3 as stated fails: a key that is absent makes [get_in] fail, with
    a [KeyError] at the last segment and with a [TypeError] before it;
    no list is involved. *)
Lemma get_in_missing_key_fails :
  (get_in (VRef 0%nat) "a" "." [ODict []]).1 = Raise (KeyError "a") /\
  (get_in (VRef 0%nat) "a.b" "." [ODict []]).1 = Raise TypeError.
Proof. split; reflexivity. Qed.

(** ** update_in on a mapping without the keys of the path *)

Lemma setitem_str_at_dict (h : heap) (l : loc) (items : list (val * val))
    (x : string) (value : val) :
  h !! l = Some (ODict items) ->
  setitem_str (VRef l) x value h
  = (Ok (), <[l := ODict (dict_set (VStr x) value items)]> h).
Proof.
  intros H. unfold setitem_str. by rewrite (bind_Ok _ _ _ _ _ (load_at _ _ _ H)).
Qed.

(** One step of the walk of [update_in] at an empty dict: the new empty
    dict is stored under the key in the copy, which is dropped; the dict
    the walk stands on is left as it was. *)
Lemma update_in_step_empty (h : heap) (d : loc) (x : string) :
  h !! d = Some (ODict []) ->
  update_in_step (VRef d) x h =
    (Ok (VRef d, VRef (S (length h))),
     h ++ [ODict [(VStr x, VRef (S (length h)))]; ODict []]).
Proof.
  intros H. unfold update_in_step.
  rewrite (bind_Ok _ _ _ _ _ (dict_test_is_dict _ _ _ x H)).
  rewrite (bind_Ok _ _ _ _ _ (py_dict_at_dict _ _ _ H)).
  erewrite bind_Ok; [|reflexivity].
  rewrite length_app, Nat.add_1_r, <- app_assoc. cbn [app].
  unfold dict_setdefault.
  erewrite bind_Ok; [|erewrite bind_Ok; [|apply load_at, lookup_fresh]; reflexivity].
  cbn [fst]. f_equal.
  rewrite insert_app_r_alt by lia. by rewrite Nat.sub_diag.
Qed.

(** The walk of [update_in] from an empty dict: it ends on an empty
    dict, which is the one it started from only when the path has a
    single segment; otherwise it is an object made during the walk. No
    object that was there before is changed. *)
Lemma update_in_walk_from_empty (segs : list string) :
  forall (h : heap) (d : loc) (bound : option (val * string)),
    h !! d = Some (ODict []) ->
    segs <> [] ->
    exists (h' : heap) (p : loc) (x : string) (dct' : val),
      for_segments update_in_step segs bound (VRef d) h
        = (Ok (Some (VRef p, x), dct'), h') /\
      h `prefix_of` h' /\
      h' !! p = Some (ODict []) /\
      (p = d \/ (length h <= p)%nat) /\
      ((2 <= length segs)%nat -> (length h <= p)%nat).
Proof.
  induction segs as [|x segs IH]; intros h d bound Hd Hne; [done|].
  pose proof (update_in_step_empty h d x Hd) as Hstep.
  cbn [for_segments]. rewrite (bind_Ok _ _ _ _ _ Hstep). cbn [fst snd].
  set (h1 := h ++ [ODict [(VStr x, VRef (S (length h)))]; ODict []]).
  assert (h `prefix_of` h1) as Hpre by apply prefix_app_r, reflexivity.
  destruct segs as [|y segs].
  - exists h1, d, x, (VRef (S (length h))). cbn [for_segments length].
    repeat split; [done| |by left|lia].
    by eapply prefix_lookup_Some.
  - assert (h1 !! S (length h) = Some (ODict [])) as Hnew.
    { unfold h1. rewrite lookup_app_r by lia.
      by replace (S (length h) - length h)%nat with 1%nat by lia. }
    destruct (IH h1 (S (length h)) (Some (VRef d, x)) Hnew ltac:(done))
      as (h' & p & x' & dct' & Hrun & Hpre' & Hp & Hcase & _).
    exists h', p, x', dct'. repeat split; [done| |done| |].
    + by etrans.
    + right. destruct Hcase as [->|Hge]; [lia|].
      unfold h1 in Hge. rewrite length_app in Hge. lia.
    + intros _. destruct Hcase as [->|Hge]; [lia|].
      unfold h1 in Hge. rewrite length_app in Hge. lia.
Qed.

(** C1: from a mapping without the keys, [update_in] on a path of two or
    more segments leaves the mapping as it was: the intermediate
    mappings and the value are put into objects that nothing refers to,
    and reading the path back fails. *)
Theorem update_in_empty_mapping_unchanged (h : heap) (l : loc)
    (path sep : string) (value : val) (x y : string) (rest : list string) :
  h !! l = Some (ODict []) ->
  Str.split path sep = Ok (x :: y :: rest) ->
  (update_in (VRef l) path value sep h).1 = Ok () /\
  (update_in (VRef l) path value sep h).2 !! l = Some (ODict []) /\
  (get_in (VRef l) path sep (update_in (VRef l) path value sep h).2).1
    = Raise TypeError.
Proof.
  intros Hl Hsplit.
  destruct (update_in_walk_from_empty (x :: y :: rest) h l None Hl ltac:(done))
    as (h' & p & x' & dct' & Hrun & Hpre & Hp & _ & Hfresh).
  specialize (Hfresh ltac:(cbn [length]; lia)).
  assert (update_in (VRef l) path value sep h
          = (Ok (), <[p := ODict [(VStr x', value)]]> h')) as ->.
  { unfold update_in. erewrite bind_Ok; [|unfold lift; by rewrite Hsplit].
    rewrite (bind_Ok _ _ _ _ _ Hrun). cbn [fst snd].
    by rewrite (setitem_str_at_dict _ _ _ _ _ Hp). }
  cbn [fst snd].
  assert (<[p := ODict [(VStr x', value)]]> h' !! l = Some (ODict [])) as Hl'.
  { rewrite list_lookup_insert_ne.
    - by eapply prefix_lookup_Some.
    - apply lookup_lt_Some in Hl. lia. }
  repeat split; [done|].
  rewrite (get_in_by_segments _ _ _ _ _ Hsplit).
  eapply get_in_walk; [reflexivity|].
  cbn [walk_mappings]. by rewrite Hl'.
Qed.

Lemma update_in_empty_mapping_unchanged_witness :
  (update_in (VRef 0%nat) "a.b.c" (VInt 5) "." [ODict []]).1 = Ok () /\
  (update_in (VRef 0%nat) "a.b.c" (VInt 5) "." [ODict []]).2 !! 0%nat
    = Some (ODict []) /\
  (get_in (VRef 0%nat) "a.b.c" "."
     (update_in (VRef 0%nat) "a.b.c" (VInt 5) "." [ODict []]).2).1
    = Raise TypeError.
Proof.
  exact (update_in_empty_mapping_unchanged [ODict []] 0%nat "a.b.c" "."
           (VInt 5) "a" "b" ["c"] eq_refl eq_refl).
Defined.

(** When the keys before the last are there, the copies share their
    values with the tree and the value is set in the tree itself. *)
Example update_in_existing_keys :
  update_in (VRef 0%nat) "a.b" (VInt 9) "."
    [ODict [(VStr "a", VRef 1%nat)]; ODict [(VStr "b", VInt 7)]]
  = (Ok (),
     [ODict [(VStr "a", VRef 1%nat)]; ODict [(VStr "b", VInt 9)];
      ODict [(VStr "a", VRef 1%nat)]; ODict [];
      ODict [(VStr "b", VInt 7)]; ODict []]).
Proof. reflexivity. Qed.

(** ** product_block_paths *)

Lemma paths_of_prefixed (k : string) (yielded : list (string * pyval)) :
  map fst (prefixed k yielded) = map (fun p => k +:+ "." +:+ p) (map fst yielded).
Proof. unfold prefixed. rewrite !map_map. reflexivity. Qed.

(** An entry whose value is a dict: the paths inside it, under the key,
    and then the key. *)
Lemma product_block_paths_dict_entry (k : string)
    (items rest : list (string * pyval)) :
  product_block_paths (PDict ((k, PDict items) :: rest))
  = map (fun p => k +:+ "." +:+ p) (product_block_paths (PDict items))
    ++ k :: product_block_paths (PDict rest).
Proof.
  unfold product_block_paths. cbn [get_dict_items].
  rewrite !map_app, paths_of_prefixed. cbn [map fst app].
  by rewrite <- app_assoc.
Qed.

(** An entry whose value is an atom yields nothing. *)
Lemma product_block_paths_atom_entry (k : string) (v : pyval)
    (rest : list (string * pyval)) :
  is_atom v = true ->
  product_block_paths (PDict ((k, v) :: rest)) = product_block_paths (PDict rest).
Proof.
  intros Hv. unfold product_block_paths.
  destruct v; try discriminate; reflexivity.
Qed.

(** C4, as amended: on the example tree the enumerator yields the paths
    of the two mappings, [a] and [c.0], and nothing else; the entries
    [b] and [d], whose values are atoms, yield no path. In general the
    paths inside a mapping come before the path of the mapping, and an
    entry with an atom for a value yields nothing. *)
Theorem product_block_paths_example :
  product_block_paths example_tree = ["a"; "c.0"] /\
  (forall k items rest,
      product_block_paths (PDict ((k, PDict items) :: rest))
      = map (fun p => k +:+ "." +:+ p) (product_block_paths (PDict items))
        ++ k :: product_block_paths (PDict rest)) /\
  (forall k v rest,
      is_atom v = true ->
      product_block_paths (PDict ((k, v) :: rest))
      = product_block_paths (PDict rest)).
Proof.
  split; [reflexivity|].
  split; [apply product_block_paths_dict_entry|apply product_block_paths_atom_entry].
Qed.

Lemma product_block_paths_example_witness :
  product_block_paths (PDict [("b", PInt 1)]) = product_block_paths (PDict []).
Proof.
  exact (proj2 (proj2 product_block_paths_example) "b" (PInt 1) [] eq_refl).
Defined.

(** C4 as stated fails: the leaf paths [a.b] and [c.0.d] are not among
    the paths of the example tree. *)
Lemma product_block_paths_no_leaf_paths :
  ~ In "a.b" (product_block_paths example_tree) /\
  ~ In "c.0.d" (product_block_paths example_tree).
Proof.
  split; intros H; cbv in H; intuition discriminate.
Qed.

(** ** The text-query sanitizer *)

(** The tokenizer raises nothing but [ValueError]. *)
Lemma tokens_from_raise (input : string) :
  forall st in_comment token e,
    Shlex.tokens_from st in_comment token input = Raise e -> e = ValueError.
Proof.
  induction input as [|c input IH]; intros st in_comment token e H.
  - destruct st; cbn in H; congruence.
  - cbn [Shlex.tokens_from] in H.
    destruct in_comment; [by eapply IH|].
    destruct st.
    + repeat case_match; by eapply IH.
    + repeat case_match; try by eapply IH.
      unfold mbind, result_bind in H.
      destruct (Shlex.tokens_from Shlex.Whitespace false EmptyString input) eqn:Hrest;
        [discriminate|]. simplify_eq. by eapply IH.
    + repeat case_match; try by eapply IH.
      unfold mbind, result_bind in H.
      destruct (Shlex.tokens_from Shlex.Whitespace false EmptyString input) eqn:Hrest;
        [discriminate|]. simplify_eq. by eapply IH.
Qed.

(** What [_process_text_query] returns, by the outcome of the tokenizer
    on the balanced query. *)
Lemma process_text_query_cases (q : string) :
  match Shlex.tokens (balance_quotes q) with
  | Ok toks =>
      _process_text_query q = Ok (Str.join " " (map _quote_if_kv_pair toks))
  | Raise _ => _process_text_query q = Ok (balance_quotes q)
  end.
Proof.
  unfold _process_text_query.
  destruct (Shlex.tokens (balance_quotes q)) as [toks|e] eqn:H; [reflexivity|].
  by rewrite (tokens_from_raise _ _ _ _ _ H).
Qed.

Lemma process_text_query_total (q : string) :
  exists out, _process_text_query q = Ok out.
Proof.
  pose proof (process_text_query_cases q) as H.
  destruct (Shlex.tokens (balance_quotes q)); eauto.
Qed.

Lemma plain_char_inv (c : ascii) :
  plain_char c = true ->
  Str.mem_char c Shlex.whitespace = false /\
  Str.mem_char c Shlex.commenters = false /\
  Str.mem_char c Shlex.quotes = false.
Proof.
  unfold plain_char. intros H.
  apply andb_prop in H as [H H3]. apply andb_prop in H as [H1 H2].
  by rewrite !negb_true_iff in *.
Qed.

(** Inside a word, plain characters are added to the token. *)
Lemma tokens_from_word (w : string) :
  forall token rest,
    Str.all_chars plain_char w = true ->
    Shlex.tokens_from Shlex.Word false token (w +:+ rest)
    = Shlex.tokens_from Shlex.Word false (token +:+ w) rest.
Proof.
  induction w as [|c w IH]; intros token rest Hw.
  - by rewrite append_empty_l, append_empty_r.
  - cbn [Str.all_chars] in Hw. apply andb_prop in Hw as [Hc Hw].
    destruct (plain_char_inv _ Hc) as (Hws & Hcm & _).
    rewrite append_cons. cbn [Shlex.tokens_from]. rewrite Hws, Hcm.
    rewrite (IH _ _ Hw). unfold Str.of_char.
    by rewrite append_assoc, append_cons, append_empty_l.
Qed.

(** A plain word between tokens starts a word. *)
Lemma tokens_from_start (w rest : string) :
  plain_word w = true ->
  Shlex.tokens_from Shlex.Whitespace false EmptyString (w +:+ rest)
  = Shlex.tokens_from Shlex.Word false w rest.
Proof.
  destruct w as [|c w]; [discriminate|]. intros Hw.
  cbn [plain_word Str.all_chars] in Hw. apply andb_prop in Hw as [Hc Hw].
  destruct (plain_char_inv _ Hc) as (Hws & Hcm & Hq).
  rewrite append_cons. cbn [Shlex.tokens_from]. rewrite Hws, Hcm, Hq.
  rewrite (tokens_from_word _ _ _ Hw). unfold Str.of_char.
  by rewrite append_cons, append_empty_l.
Qed.

(** Plain words with single spaces between them are the tokens. *)
Lemma tokens_of_words (words : list string) :
  Forall (fun w => plain_word w = true) words ->
  Shlex.tokens (Str.join " " words) = Ok words.
Proof.
  unfold Shlex.tokens. induction 1 as [|w words Hw Hwords IH]; [reflexivity|].
  destruct words as [|w' words].
  - cbn [Str.join]. rewrite <- (append_empty_r w) at 1.
    by rewrite (tokens_from_start _ _ Hw).
  - change (Str.join " " (w :: w' :: words))
      with (w +:+ " " +:+ Str.join " " (w' :: words)).
    rewrite (tokens_from_start _ _ Hw).
    change (" " +:+ Str.join " " (w' :: words))
      with (String " " (Str.join " " (w' :: words))).
    cbn [Shlex.tokens_from]. change (Str.mem_char " " Shlex.whitespace) with true.
    cbn match. by rewrite IH.
Qed.

Lemma count_char_append (c : ascii) (a b : string) :
  Str.count_char c (a +:+ b) = (Str.count_char c a + Str.count_char c b)%nat.
Proof.
  induction a as [|x a IH]; [reflexivity|].
  rewrite append_cons. cbn [Str.count_char]. rewrite IH. lia.
Qed.

Lemma plain_chars_no_quote (w : string) :
  Str.all_chars plain_char w = true -> Str.count_char Str.quote_char w = O.
Proof.
  induction w as [|c w IH]; [reflexivity|]. cbn [Str.all_chars Str.count_char].
  intros H. apply andb_prop in H as [Hc Hw].
  destruct (plain_char_inv _ Hc) as (_ & _ & Hq).
  cbn in Hq. rewrite orb_false_r in Hq. rewrite Ascii.eqb_sym, Hq, (IH Hw).
  reflexivity.
Qed.

Lemma plain_words_no_quote (words : list string) :
  Forall (fun w => plain_word w = true) words ->
  Str.count_char Str.quote_char (Str.join " " words) = O.
Proof.
  induction 1 as [|w words Hw Hwords IH]; [reflexivity|].
  assert (Str.count_char Str.quote_char w = O) as Hcount.
  { apply plain_chars_no_quote. by destruct w. }
  destruct words as [|w' words]; [exact Hcount|].
  change (Str.join " " (w :: w' :: words))
    with (w +:+ " " +:+ Str.join " " (w' :: words)).
  rewrite !count_char_append, Hcount, IH. reflexivity.
Qed.

(** On plain words with single spaces between them, the sanitizer
    quotes the words that hold a colon and leaves the others. *)
Lemma process_text_query_words (words : list string) :
  Forall (fun w => plain_word w = true) words ->
  _process_text_query (Str.join " " words)
  = Ok (Str.join " " (map _quote_if_kv_pair words)).
Proof.
  intros Hwords.
  assert (balance_quotes (Str.join " " words) = Str.join " " words) as Hbal.
  { unfold balance_quotes. by rewrite (plain_words_no_quote _ Hwords). }
  unfold _process_text_query. rewrite Hbal. cbv zeta.
  by rewrite (tokens_of_words _ Hwords).
Qed.

Lemma odd_count (n : nat) : Nat.eqb (Nat.modulo n 2) 1 = Nat.odd n.
Proof. by rewrite <- Nat.bit0_eqb, Nat.bit0_odd. Qed.

(** C5, as amended: the sanitizer never raises; it adds one double quote
    when their number is odd, puts double quotes around every token that
    holds a colon and leaves the other tokens as they are, so that plain
    words separated by single spaces come back unchanged unless they hold
    a colon; when the tokenizer fails it returns the query as it stands
    after the balancing step, that is with the added double quote when
    there was one. *)
Theorem process_text_query_spec (q : string) :
  (exists out, _process_text_query q = Ok out) /\
  balance_quotes q
    = (if Nat.odd (Str.count_char Str.quote_char q) then q +:+ dquote else q) /\
  match Shlex.tokens (balance_quotes q) with
  | Ok toks =>
      _process_text_query q = Ok (Str.join " " (map _quote_if_kv_pair toks))
  | Raise _ => _process_text_query q = Ok (balance_quotes q)
  end /\
  (forall token,
      _quote_if_kv_pair token
      = if Str.contains ":" token then dquote +:+ token +:+ dquote else token) /\
  (forall words,
      Forall (fun w => plain_word w = true) words ->
      Forall (fun w => Str.contains ":" w = false) words ->
      _process_text_query (Str.join " " words) = Ok (Str.join " " words)) /\
  _process_text_query "status:active" = Ok (dquote +:+ "status:active" +:+ dquote) /\
  _process_text_query "hello world" = Ok "hello world".
Proof.
  split; [apply process_text_query_total|].
  split; [unfold balance_quotes; by rewrite odd_count|].
  split; [apply process_text_query_cases|].
  split; [reflexivity|].
  split; [|split; reflexivity].
  intros words Hplain Hcolon. rewrite (process_text_query_words _ Hplain).
  do 2 f_equal. clear Hplain.
  induction Hcolon as [|w words Hw _ IH]; [reflexivity|].
  cbn [map]. unfold _quote_if_kv_pair at 1. by rewrite Hw, IH.
Qed.

Lemma process_text_query_spec_witness :
  _process_text_query (Str.join " " ["hello"; "world"])
  = Ok (Str.join " " ["hello"; "world"]).
Proof.
  apply (proj1 (proj2 (proj2 (proj2 (proj2 (process_text_query_spec "")))))).
  - repeat constructor.
  - repeat constructor.
Defined.

(** C5 as stated fails: when the tokenizer fails on a query to which a
    double quote was added, what comes back is the query with the added
    double quote, not the query as it was given. *)
Lemma process_text_query_error_keeps_added_quote :
  Shlex.tokens (balance_quotes unbalanced_query) = Raise ValueError /\
  _process_text_query unbalanced_query = Ok (unbalanced_query +:+ dquote) /\
  unbalanced_query +:+ dquote <> unbalanced_query.
Proof. repeat split. discriminate. Qed.

(** ** The filter rules *)

Lemma parse_raise (base : Z) (s : string) (e : exn) :
  Int.parse base s = Raise e -> e = ValueError.
Proof. unfold Int.parse. intros H. repeat case_match; congruence. Qed.

Lemma UUID_raise (value : string) (e : exn) :
  UUID value = Raise e -> e = ValueError.
Proof.
  unfold UUID. intros H.
  destruct (negb _); [congruence|].
  destruct (Int.parse 16 _) as [n|e'] eqn:Hparse; cbn in H.
  - destruct (_ && _); congruence.
  - apply parse_raise in Hparse. congruence.
Qed.

(** The [organisation] rule. *)
Lemma apply_filter_organisation (schema : Schema) (query : Query)
    (value : string) :
  apply_filter schema query "organisation" value =
    match UUID value with
    | Ok u => Ok (Query_filter query (EqUUID (SubscriptionAttr "customer_id") u))
    | Raise _ => Raise (HTTPError 400 organisation_msg)
    end.
Proof.
  unfold apply_filter. cbn.
  destruct (UUID value) as [u|e] eqn:H; [reflexivity|].
  by rewrite (UUID_raise _ _ H).
Qed.

Lemma split_Ok (value sep : string) (c : ascii) (sep' : string) :
  sep = String c sep' ->
  Str.split value sep = Ok (Str.split_from sep O EmptyString value).
Proof. by intros ->. Qed.

(** ** Token lists taken two at a time *)

Lemma list_pair_ind {A} (P : list A -> Prop) :
  P [] -> (forall a, P [a]) -> (forall a b l, P l -> P (a :: b :: l)) ->
  forall l, P l.
Proof.
  intros H0 H1 H2 l.
  enough (P l /\ forall a, P (a :: l)) as [H _] by exact H.
  induction l as [|b l [IH1 IH2]]; [by split|].
  split; [apply IH2|]. intros a. by apply H2.
Qed.

Lemma chunked2_app_even {A} (pre l : list A) :
  Nat.even (length pre) = true ->
  chunked2 (pre ++ l) = chunked2 pre ++ chunked2 l.
Proof.
  induction pre as [|a|a b pre IH] using list_pair_ind; intros Hpre.
  - reflexivity.
  - discriminate.
  - cbn [app chunked2]. by rewrite IH.
Qed.

Lemma apply_filters_app (schema : Schema) (c1 c2 : list (list string)) :
  forall query,
    apply_filters schema query (c1 ++ c2)
    = apply_filters schema query c1 ≫= fun q => apply_filters schema q c2.
Proof.
  induction c1 as [|c c1 IH]; intros query; [reflexivity|].
  cbn [app apply_filters].
  destruct (match c with [field; value] => _ | _ => _ end) as [q|e];
    [apply IH|reflexivity].
Qed.

(** ** Names with a comparison suffix *)

Lemma list_ascii_append (a b : string) :
  list_ascii_of_string (a +:+ b)
  = (list_ascii_of_string a ++ list_ascii_of_string b)%list.
Proof.
  induction a as [|x a IH]; [reflexivity|].
  rewrite append_cons. cbn [list_ascii_of_string app]. by rewrite IH.
Qed.

Lemma string_of_list_append (l1 l2 : list ascii) :
  string_of_list_ascii (l1 ++ l2)
  = string_of_list_ascii l1 +:+ string_of_list_ascii l2.
Proof.
  induction l1 as [|x l1 IH]; [reflexivity|].
  cbn [app string_of_list_ascii]. by rewrite append_cons, IH.
Qed.

Lemma rev_append (a b : string) : Str.rev (a +:+ b) = Str.rev b +:+ Str.rev a.
Proof.
  unfold Str.rev. by rewrite list_ascii_append, rev_app_distr, string_of_list_append.
Qed.

Lemma length_append (a b : string) :
  String.length (a +:+ b) = (String.length a + String.length b)%nat.
Proof.
  induction a as [|x a IH]; [reflexivity|].
  rewrite append_cons. cbn [String.length]. by rewrite IH.
Qed.

Lemma substring_append (a b : string) :
  String.substring 0 (String.length a) (a +:+ b) = a.
Proof.
  induction a as [|x a IH]; [by destruct b|].
  rewrite append_cons. cbn [String.length String.substring]. by rewrite IH.
Qed.

Lemma drop_last_append (n : nat) (a b : string) :
  String.length b = n -> Str.drop_last n (a +:+ b) = a.
Proof.
  intros <-. unfold Str.drop_last. rewrite length_append.
  replace (String.length a + String.length b - String.length b)%nat
    with (String.length a) by lia.
  apply substring_append.
Qed.

(** Whether a name with one suffix added ends with another one is
    decided by the two suffixes. *)
Lemma endswith_append (name suffix suffix' : string) :
  (String.length suffix' <= String.length suffix)%nat ->
  Str.endswith (name +:+ suffix) suffix' = Str.endswith suffix suffix'.
Proof.
  unfold Str.endswith. rewrite rev_append.
  assert (String.length (Str.rev suffix') = String.length suffix') as <-.
  { unfold Str.rev. generalize (list_ascii_of_string_of_list_ascii
      (rev (list_ascii_of_string suffix'))).
    intros H.
    assert (forall s, String.length s = length (list_ascii_of_string s)) as Hlen.
    { intros s. induction s as [|x s IH]; [reflexivity|]. cbn. by rewrite IH. }
    by rewrite !Hlen, H, length_rev. }
  assert (String.length (Str.rev suffix) = String.length suffix) as <-.
  { unfold Str.rev. generalize (list_ascii_of_string_of_list_ascii
      (rev (list_ascii_of_string suffix))).
    intros H.
    assert (forall s, String.length s = length (list_ascii_of_string s)) as Hlen.
    { intros s. induction s as [|x s IH]; [reflexivity|]. cbn. by rewrite IH. }
    by rewrite !Hlen, H, length_rev. }
  generalize (Str.rev suffix) (Str.rev suffix') (Str.rev name).
  intros s. induction s as [|x s IH]; intros p n Hlen.
  - destruct p; [by destruct n|cbn in Hlen; lia].
  - destruct p as [|y p]; [reflexivity|]. rewrite append_cons.
    cbn [Str.startswith]. cbn [String.length] in Hlen.
    by rewrite IH by lia.
Qed.

Lemma startswith_differ (s p n : string) :
  differ s p = true -> Str.startswith (s +:+ n) p = false.
Proof.
  revert p. induction s as [|a s IH]; intros p H; [by destruct p|].
  destruct p as [|b p]; [discriminate|]. cbn [differ] in H.
  rewrite append_cons. cbn [Str.startswith].
  destruct (Ascii.eqb b a); [|reflexivity]. cbn in H. by rewrite IH.
Qed.

(** Two suffixes that differ, counted from the end, within the length
    of both: a name ending with one does not end with the other. *)
Lemma endswith_differ (name suffix suffix' : string) :
  differ (Str.rev suffix) (Str.rev suffix') = true ->
  Str.endswith (name +:+ suffix) suffix' = false.
Proof.
  intros H. unfold Str.endswith. rewrite rev_append. by apply startswith_differ.
Qed.

(** A name with one of the five suffixes added meets the rule of that
    suffix and no rule before it: the entry of that name is looked up
    and compared with the value. *)
Lemma apply_filter_suffix (schema : Schema) (query : Query)
    (name value : string) (op : attribute -> string -> criterion)
    (suffix : string) :
  (suffix, op) ∈ [("_gt", Gt); ("_gte", Ge); ("_lte", Le); ("_lt", Lt);
                  ("_ne", Ne)] ->
  apply_filter schema query (name +:+ suffix) value
  = a ← SubscriptionTable_getitem schema name;
    c ← criterion_on schema a (op a value);
    mret (Query_filter query c).
Proof.
  rewrite !elem_of_cons, elem_of_nil.
  intros [H|[H|[H|[H|[H|[]]]]]]; simplify_eq; unfold apply_filter;
    rewrite ?endswith_differ by reflexivity;
    rewrite ?endswith_append by (cbn; lia);
    repeat match goal with
           | |- context [Str.endswith ?a ?b] =>
               let r := eval vm_compute in (Str.endswith a b) in
               change (Str.endswith a b) with r
           end;
    cbv iota;
    by rewrite drop_last_append by reflexivity.
Qed.

(** C6, as amended: an [organisation] pair whose value is no UUID ends
    the whole operation with the client error 400 whose message holds
    [must be a UUID], and no rows are fetched; with a UUID for a value
    the operation goes on from the query with the criterion that the
    customer id equals that UUID. It is not the only rule that ends the
    operation: a comparison suffix on a name that is not in
    [SubscriptionTable.__dict__] ends it as well, with a [KeyError]. *)
Theorem organisation_filter_rule (schema : Schema) (db : Store)
    (response : Response) (query q' : Query)
    (range : option (list range_item)) (sort : option (list string))
    (pre post : list string) (value : string) :
  Nat.even (length pre) = true ->
  apply_filters schema query (chunked2 pre) = Ok q' ->
  _query_with_filters schema db response query range sort
    (Some (pre ++ "organisation" :: value :: post))
  = match UUID value with
    | Ok u =>
        _query_with_filters schema db response
          (Query_filter q' (EqUUID (SubscriptionAttr "customer_id") u))
          range sort (Some post)
    | Raise _ => Raise (HTTPError 400 organisation_msg)
    end /\
  Str.contains "must be a UUID" organisation_msg = true /\
  (forall name v,
      name ∉ SubscriptionTable_dict schema ->
      apply_filter schema q' (name +:+ "_gt") v = Raise (KeyError name) /\
      apply_filter schema q' (name +:+ "_gte") v = Raise (KeyError name) /\
      apply_filter schema q' (name +:+ "_lte") v = Raise (KeyError name) /\
      apply_filter schema q' (name +:+ "_lt") v = Raise (KeyError name) /\
      apply_filter schema q' (name +:+ "_ne") v = Raise (KeyError name)).
Proof.
  intros Hpre Hq'. split; [|split; [reflexivity|]].
  - unfold _query_with_filters, filter_step.
    rewrite (chunked2_app_even _ _ Hpre), apply_filters_app, Hq'.
    cbn [mbind result_bind chunked2 apply_filters].
    rewrite apply_filter_organisation.
    by destruct (UUID value).
  - intros name v Hname.
    assert (SubscriptionTable_getitem schema name = Raise (KeyError name))
      as Hget.
    { unfold SubscriptionTable_getitem. by rewrite bool_decide_eq_false_2. }
    repeat split;
      (erewrite apply_filter_suffix;
       [by rewrite Hget|rewrite !elem_of_cons; tauto]).
Qed.

Lemma organisation_filter_rule_witness :
  _query_with_filters example_schema example_store empty_response empty_query
    None None (Some ["organisation"; "not-a-uuid"])
  = Raise (HTTPError 400 organisation_msg).
Proof.
  exact (proj1 (organisation_filter_rule example_schema example_store
                  empty_response empty_query empty_query None None [] []
                  "not-a-uuid" eq_refl eq_refl)).
Defined.

Example organisation_filter_uuid :
  filter_step example_schema empty_query
    (Some ["organisation"; "12345678-1234-5678-1234-567812345678"])
  = Ok (Query_filter empty_query
          (EqUUID (SubscriptionAttr "customer_id")
             (MkUUID 0x12345678123456781234567812345678))).
Proof. reflexivity. Qed.

(** C6 as stated fails: a comparison suffix on a name the subscription
    table does not define ends the operation as well, with a
    [KeyError]. *)
Lemma suffix_filter_raises :
  _query_with_filters example_schema example_store empty_response empty_query
    None None (Some ["_gt"; "1"]) = Raise (KeyError "") /\
  _query_with_filters example_schema example_store empty_response empty_query
    None None (Some ["price_gte"; "1"]) = Raise (KeyError "price").
Proof. split; reflexivity. Qed.

(** ** The range step *)

Lemma int_raise (r : range_item) (e : exn) : int r = Raise e -> e = ValueError.
Proof. destruct r; [discriminate|]. apply parse_raise. Qed.

Lemma range_bounds_cases (r0 r1 : range_item) :
  range_bounds r0 r1 =
    match int r0, int r1 with
    | Ok range_start, Ok range_end =>
        if range_start <? range_end then Ok (range_start, range_end)
        else Raise ValueError
    | _, _ => Raise ValueError
    end.
Proof.
  unfold range_bounds.
  destruct (int r0) as [s|e0] eqn:H0; cbn;
    [|by rewrite (int_raise _ _ H0)].
  destruct (int r1) as [e|e1] eqn:H1; cbn;
    [|by rewrite (int_raise _ _ H1)].
  rewrite Z.geb_leb, Z.leb_antisym. by destruct (s <? e).
Qed.

Lemma length_insert_row (db : Store) (order : list ordering) (r : row db)
    (l : list (row db)) :
  length (insert_row db order r l) = S (length l).
Proof.
  induction l as [|r' l IH]; [reflexivity|]. cbn [insert_row].
  destruct (compare_rows db order r r'); cbn [length]; by rewrite ?IH.
Qed.

(** Ordering the rows neither adds nor drops one. *)
Lemma length_sort_rows (db : Store) (order : list ordering) (l : list (row db)) :
  length (sort_rows db order l) = length l.
Proof.
  unfold sort_rows. induction l as [|r l IH]; [reflexivity|].
  cbn [foldr length]. by rewrite length_insert_row, IH.
Qed.

Lemma get_set_header (response : Response) (key value : string) :
  get_header (set_header response key value) key = Some value.
Proof. unfold get_header, set_header. cbn [headers]. apply lookup_insert_eq. Qed.

Lemma apply_filter_window (schema : Schema) (query q' : Query)
    (field value : string) :
  apply_filter schema query field value = Ok q' -> same_window query q'.
Proof.
  unfold apply_filter.
  assert (forall name (c : attribute -> criterion),
    (a ← SubscriptionTable_getitem schema name;
     c' ← criterion_on schema a (c a);
     mret (Query_filter query c')) = Ok q' ->
    same_window query q') as Hattr.
  { intros name c. unfold SubscriptionTable_getitem.
    destruct (bool_decide _); cbn [mbind result_bind]; [|discriminate].
    destruct (criterion_on _ _ _); [|discriminate]. by intros [= <-]. }
  do 5 (destruct (Str.endswith field _); [by apply Hattr|]).
  rewrite (split_Ok value "-" "-" EmptyString eq_refl).
  cbn [mbind result_bind mret result_ret].
  do 6 (destruct (String.eqb field _); [by intros [= <-]|]).
  destruct (String.eqb field "organisation").
  { destruct (UUID value) as [u|[]]; try discriminate. by intros [= <-]. }
  destruct (String.eqb field "tsv").
  { destruct (_process_text_query value); [|discriminate]. by intros [= <-]. }
  destruct (bool_decide _); [by apply Hattr|]. by intros [= <-].
Qed.

Lemma apply_filters_window (schema : Schema) (chunks : list (list string)) :
  forall query q', apply_filters schema query chunks = Ok q' -> same_window query q'.
Proof.
  induction chunks as [|c chunks IH]; intros query q'; cbn [apply_filters].
  - by intros [= <-].
  - destruct (match c with [field; value] => _ | _ => _ end) as [q1|] eqn:Hc;
      [|discriminate]. cbn [mbind result_bind]. intros H%IH.
    assert (same_window query q1) as H1.
    { destruct c as [|f [|v [|? ?]]]; simplify_eq; try done.
      by eapply apply_filter_window. }
    unfold same_window in *. intuition congruence.
Qed.

Lemma apply_sort_window (schema : Schema) (query q' : Query) (key direction : string) :
  apply_sort schema query key direction = Ok q' -> same_window query q'.
Proof.
  unfold apply_sort, ProductTable_getitem, SubscriptionTable_getitem.
  unfold mbind, result_bind, mret, result_ret.
  intros H. repeat case_match; simplify_eq; by split.
Qed.

Lemma apply_sorts_window (schema : Schema) (chunks : list (list string)) :
  forall query q', apply_sorts schema query chunks = Ok q' -> same_window query q'.
Proof.
  induction chunks as [|c chunks IH]; intros query q'; cbn [apply_sorts].
  - by intros [= <-].
  - destruct (match c with [key; direction] => _ | _ => _ end) as [q1|] eqn:Hc;
      [|discriminate]. cbn [mbind result_bind]. intros H%IH.
    assert (same_window query q1) as H1.
    { destruct c as [|f [|v [|? ?]]]; simplify_eq; try done.
      by eapply apply_sort_window. }
    unfold same_window in *. intuition congruence.
Qed.

(** Compiling filters and sort tokens leaves the offset and the limit of
    the query as they were. *)
Lemma compile_window (schema : Schema) (query q1 q' : Query)
    (sort filters : option (list string)) :
  filter_step schema query filters = Ok q1 ->
  sort_step schema q1 sort = Ok q' ->
  same_window query q'.
Proof.
  intros Hf Hs.
  assert (same_window query q1) as [Ho Hl].
  { unfold filter_step in Hf. destruct filters as [filters|];
      [|simplify_eq; by split].
    by eapply apply_filters_window. }
  assert (same_window q1 q') as [Ho' Hl'].
  { unfold sort_step in Hs. destruct sort as [sort|]; [|simplify_eq; by split].
    destruct (2 <=? length sort)%nat; [|simplify_eq; by split].
    by eapply apply_sorts_window. }
  split; congruence.
Qed.

(** C7, as amended: with a range of two elements, once the filters and
    the sort tokens are compiled, a bound that is no int or a start that
    is not below the end is the client error 400 [Invalid range
    parameters]; otherwise the [Content-Range] header is [subscriptions
    start-end/total], the total being the count of the compiled query
    before it is cut (the number of rows that meet the criteria), and the
    rows are those of the compiled query cut with offset [start] and
    limit [end - start]: at most [end - start] rows, from the position
    [start] on, or from the first row when [start] is negative. So for a
    start that is not negative the rows are those at the positions from
    [start] up to [end], and for a negative start, which is let through,
    they are not. *)
Theorem range_rule (schema : Schema) (db : Store) (response : Response)
    (query q1 q' : Query) (r0 r1 : range_item)
    (sort filters : option (list string)) :
  filter_step schema query filters = Ok q1 ->
  sort_step schema q1 sort = Ok q' ->
  _query_with_filters schema db response query (Some [r0; r1]) sort filters
  = match int r0, int r1 with
    | Ok range_start, Ok range_end =>
        if range_start <? range_end then
          Ok (Query_all db (Query_slice q' range_start range_end),
              set_header response "Content-Range"
                ("subscriptions " +:+ Str.of_Z range_start +:+ "-"
                   +:+ Str.of_Z range_end +:+ "/"
                   +:+ Str.of_Z (Query_count db q')))
        else Raise (HTTPError 400 "Invalid range parameters")
    | _, _ => Raise (HTTPError 400 "Invalid range parameters")
    end /\
  (forall value,
      get_header (set_header response "Content-Range" value) "Content-Range"
      = Some value) /\
  (q_offset query = 0 -> q_limit query = None ->
   Query_count db q' = Z.of_nat (length (matching db q')) /\
   forall range_start range_end,
     Query_all db (Query_slice q' range_start range_end)
     = take (Z.to_nat (range_end - range_start))
         (drop (Z.to_nat range_start) (Query_all db q')) /\
     (length (Query_all db (Query_slice q' range_start range_end))
      <= Z.to_nat (range_end - range_start))%nat).
Proof.
  intros Hfilter Hsort. split; [|split].
  - unfold _query_with_filters. rewrite Hfilter. cbn [mbind result_bind].
    rewrite Hsort. unfold range_step. rewrite range_bounds_cases.
    destruct (int r0) as [s|]; [|reflexivity].
    destruct (int r1) as [e|]; [|reflexivity].
    by destruct (s <? e).
  - intros value. apply get_set_header.
  - intros Hoff Hlim.
    destruct (compile_window _ _ _ _ _ _ Hfilter Hsort) as [Hoff' Hlim'].
    rewrite Hoff in Hoff'. rewrite Hlim in Hlim'. clear Hoff Hlim.
    rename Hoff' into Hoff, Hlim' into Hlim.
    assert (Query_all db q' = sort_rows db (q_order q') (matching db q')) as Hall.
    { unfold Query_all, window. by rewrite Hoff, Hlim. }
    split.
    + unfold Query_count. by rewrite Hall, length_sort_rows.
    + intros s e.
      assert (Query_all db (Query_slice q' s e)
              = take (Z.to_nat (e - s)) (drop (Z.to_nat s) (Query_all db q')))
        as ->.
      { rewrite Hall. unfold Query_all at 1, window. cbn. by rewrite Hoff. }
      split; [reflexivity|]. rewrite length_take. lia.
Qed.

Lemma range_rule_witness :
  _query_with_filters example_schema example_store empty_response empty_query
    (Some [RInt 0; RInt 10]) None None
  = Ok (Query_all example_store (Query_slice empty_query 0 10),
        set_header empty_response "Content-Range" "subscriptions 0-10/25").
Proof.
  exact (proj1 (range_rule example_schema example_store empty_response
                  empty_query empty_query empty_query (RInt 0) (RInt 10)
                  None None eq_refl eq_refl)).
Defined.

(** C7 as stated fails: a negative start passes the test on the range,
    and the rows are then not those from [start] up to [end]. Over
    twenty-five rows the range from -5 to 10 gives the fifteen rows at
    the positions 0 to 14, five of them at or past the end of the
    range. *)
Lemma range_negative_start :
  _query_with_filters example_schema example_store empty_response empty_query
    (Some [RStr "-5"; RStr " 1_0 "]) None None
  = Ok (seq 0 15,
        set_header empty_response "Content-Range" "subscriptions -5-10/25") /\
  _query_with_filters example_schema example_store empty_response empty_query
    (Some [RInt (-5); RInt 10]) None None
  = Ok (seq 0 15,
        set_header empty_response "Content-Range" "subscriptions -5-10/25") /\
  seq 0 15 <> take 10 (Query_all example_store empty_query).
Proof. repeat split. discriminate. Qed.

Example range_page_of_ten :
  length (Query_all example_store (Query_slice empty_query 0 10)) = 10%nat /\
  Query_count example_store empty_query = 25.
Proof. split; reflexivity. Qed.

Example range_start_not_below_end :
  _query_with_filters example_schema example_store empty_response empty_query
    (Some [RInt 5; RInt 5]) None None
  = Raise (HTTPError 400 "Invalid range parameters") /\
  _query_with_filters example_schema example_store empty_response empty_query
    (Some [RInt 10; RInt 3]) None None
  = Raise (HTTPError 400 "Invalid range parameters") /\
  _query_with_filters example_schema example_store empty_response empty_query
    (Some [RStr "0"; RStr "ten"]) None None
  = Raise (HTTPError 400 "Invalid range parameters").
Proof. repeat split. Qed.

(** C10: a range that does not have two elements is passed over: the
    call does what it does without a range, and when the filters and the
    sort tokens compile it returns every row of the compiled query and
    the response as it was given. *)
Theorem range_of_other_length_ignored (schema : Schema) (db : Store)
    (response : Response) (query : Query) (range : list range_item)
    (sort filters : option (list string)) :
  length range <> 2%nat ->
  _query_with_filters schema db response query (Some range) sort filters
  = _query_with_filters schema db response query None sort filters /\
  (forall q1 q',
      filter_step schema query filters = Ok q1 ->
      sort_step schema q1 sort = Ok q' ->
      _query_with_filters schema db response query (Some range) sort filters
      = Ok (Query_all db q', response)).
Proof.
  intros Hlen.
  assert (forall q, range_step db response q (Some range)
                    = range_step db response q None) as Hstep.
  { intros q. by destruct range as [|a [|b [|c range]]]. }
  split.
  - unfold _query_with_filters.
    destruct (filter_step schema query filters) as [q1|]; [|reflexivity].
    cbn [mbind result_bind].
    destruct (sort_step schema q1 sort) as [q'|]; [|reflexivity].
    apply Hstep.
  - intros q1 q' Hfilter Hsort. unfold _query_with_filters.
    rewrite Hfilter. cbn [mbind result_bind]. rewrite Hsort. apply Hstep.
Qed.

Lemma range_of_other_length_ignored_witness :
  _query_with_filters example_schema example_store empty_response empty_query
    (Some [RInt 0; RInt 10; RInt 20]) None None
  = Ok (Query_all example_store empty_query, empty_response).
Proof.
  exact (proj2 (range_of_other_length_ignored example_schema example_store
                  empty_response empty_query [RInt 0; RInt 10; RInt 20]
                  None None ltac:(simpl; lia))
           empty_query empty_query eq_refl eq_refl).
Defined.

(** ** A token left over *)

Lemma chunked2_odd {A} (l : list A) :
  Nat.odd (length l) = true ->
  exists x, chunked2 l = chunked2 (removelast l) ++ [[x]].
Proof.
  induction l as [|a|a b l IH] using list_pair_ind; intros Hodd.
  - discriminate.
  - by exists a.
  - destruct (IH Hodd) as [x Hx]. exists x.
    destruct l as [|c l]; [discriminate|].
    change (removelast (a :: b :: c :: l)) with (a :: b :: removelast (c :: l)).
    cbn [chunked2 app]. by rewrite <- Hx.
Qed.

(** C8: a filter-token list of odd length compiles to what the list
    without its last token compiles to, and the whole call returns the
    same. *)
Theorem odd_filter_list_drops_last (schema : Schema) (db : Store)
    (response : Response) (query : Query)
    (range : option (list range_item)) (sort : option (list string))
    (filters : list string) :
  Nat.odd (length filters) = true ->
  filter_step schema query (Some filters)
  = filter_step schema query (Some (removelast filters)) /\
  _query_with_filters schema db response query range sort (Some filters)
  = _query_with_filters schema db response query range sort
      (Some (removelast filters)).
Proof.
  intros Hodd.
  assert (filter_step schema query (Some filters)
          = filter_step schema query (Some (removelast filters))) as Hstep.
  { unfold filter_step. destruct (chunked2_odd _ Hodd) as [x ->].
    rewrite apply_filters_app.
    by destruct (apply_filters schema query (chunked2 (removelast filters))). }
  split; [exact Hstep|]. unfold _query_with_filters. by rewrite Hstep.
Qed.

Lemma odd_filter_list_drops_last_witness :
  _query_with_filters example_schema example_store empty_response empty_query
    None None (Some ["status"; "active"; "insync"])
  = _query_with_filters example_schema example_store empty_response empty_query
    None None (Some ["status"; "active"]).
Proof.
  exact (proj2 (odd_filter_list_drops_last example_schema example_store
                  empty_response empty_query None None
                  ["status"; "active"; "insync"] eq_refl)).
Defined.

(** ** The sort rules *)






Example sort_directions :
  sort_criterion ("status", "DeSc") = Desc (SubscriptionAttr "status") /\
  sort_criterion ("status", "descending") = Asc (SubscriptionAttr "status") /\
  sort_criterion ("tag", "") = Asc (ProductAttr "tag").
Proof. repeat split. Qed.

Example sort_single_token :
  sort_step example_schema empty_query (Some ["status"]) = Ok empty_query.
Proof. reflexivity. Qed.

(** ** What the walks do to the store *)

Lemma unchanging_growing {A} (m : M A) : unchanging m -> growing m.
Proof. intros H h. exists []. by rewrite app_nil_r. Qed.

Lemma unchanging_ret {A} (a : A) : unchanging (mret a : M A).
Proof. by intros h. Qed.

Lemma unchanging_raise {A} (e : exn) : unchanging (raise e : M A).
Proof. by intros h. Qed.

Lemma unchanging_lift {A} (r : result A) : unchanging (lift r).
Proof. by intros h. Qed.

Lemma unchanging_load (l : loc) : unchanging (load l).
Proof. intros h. unfold load. by destruct (h !! l). Qed.

Lemma unchanging_bind {A B} (m : M A) (k : A -> M B) :
  unchanging m -> (forall a, unchanging (k a)) -> unchanging (m ≫= k).
Proof.
  intros Hm Hk h. unfold mbind, M_bind. specialize (Hm h).
  destruct (m h) as [[a|e] h']; cbn [snd] in *; subst; [apply Hk|done].
Qed.

Lemma growing_bind {A B} (m : M A) (k : A -> M B) :
  growing m -> (forall a, growing (k a)) -> growing (m ≫= k).
Proof.
  intros Hm Hk h. unfold mbind, M_bind. destruct (Hm h) as [g1 Hg1].
  destruct (m h) as [[a|e] h']; cbn [snd] in *; subst; [|by exists g1].
  destruct (Hk a (h ++ g1)) as [g2 Hg2]. exists (g1 ++ g2).
  by rewrite Hg2, app_assoc.
Qed.

Ltac unchanging_step :=
  first
    [ apply unchanging_ret | apply unchanging_raise | apply unchanging_lift
    | apply unchanging_load
    | apply unchanging_bind; [|intros ?] ].

Lemma unchanging_isinstance_list (v : val) : unchanging (isinstance_list v).
Proof. destruct v; cbn [isinstance_list]; repeat unchanging_step. Qed.

Lemma unchanging_list_getitem (v : val) (i : Z) : unchanging (list_getitem v i).
Proof.
  destruct v; cbn [list_getitem]; repeat unchanging_step.
  repeat case_match; unchanging_step.
Qed.

Lemma unchanging_getitem_str (c : val) (x : string) : unchanging (getitem_str c x).
Proof.
  destruct c; cbn [getitem_str]; repeat unchanging_step.
  repeat case_match; unchanging_step.
Qed.

Lemma unchanging_dict_get_method (d : loc) (x : string) :
  unchanging (dict_get_method d x).
Proof. unfold dict_get_method. repeat unchanging_step. case_match; unchanging_step. Qed.

Lemma unchanging_pair_of (e : val) : unchanging (pair_of e).
Proof.
  unfold pair_of. repeat case_match; repeat unchanging_step.
  repeat case_match; unchanging_step.
Qed.

Lemma unchanging_dict_of_pairs (es : list val) :
  forall acc, unchanging (dict_of_pairs es acc).
Proof.
  induction es as [|e es IH]; intros acc; cbn [dict_of_pairs].
  - unchanging_step.
  - apply unchanging_bind; [apply unchanging_pair_of|]. intros kv. apply IH.
Qed.

Lemma unchanging_test (dct : val) (x : string) :
  unchanging (if Str.isdigit x then isinstance_list dct else mret false).
Proof.
  destruct (Str.isdigit x); [apply unchanging_isinstance_list|apply unchanging_ret].
Qed.

(** [dict(v)] fails without a trace, or makes one new dict. *)
Lemma py_dict_cases (v : val) (h : heap) :
  (exists e, py_dict v h = (Raise e, h)) \/
  (exists items, py_dict v h = (Ok (length h), h ++ [ODict items])).
Proof.
  assert (forall es,
    (exists e, (dict_of_pairs es [] ≫= fun items => alloc (ODict items)) h
               = (Raise e, h)) \/
    (exists items, (dict_of_pairs es [] ≫= fun items => alloc (ODict items)) h
               = (Ok (length h), h ++ [ODict items]))) as Hpairs.
  { intros es. pose proof (unchanging_dict_of_pairs es [] h) as Hh.
    unfold mbind, M_bind.
    destruct (dict_of_pairs es [] h) as [[items|e] h']; cbn [snd] in Hh; subst;
      [right; by exists items|left; by exists e]. }
  destruct v as [| | s|l]; cbn [py_dict];
    [left; by eexists|left; by eexists|apply Hpairs|].
  destruct (h !! l) as [[items|es]|] eqn:Hl.
  - rewrite (bind_Ok _ _ _ _ _ (load_at _ _ _ Hl)). right. by exists items.
  - rewrite (bind_Ok _ _ _ _ _ (load_at _ _ _ Hl)). apply Hpairs.
  - left. exists SystemError. apply bind_Raise. unfold load. by rewrite Hl.
Qed.

(** The second branch of the step of [update_in], once the copy is
    made: the value under the key, or the new empty dict, which is put
    into the copy. *)
Lemma update_in_step_copy (h : heap) (dct : val) (x : string)
    (items : list (val * val)) :
  (if Str.isdigit x then isinstance_list dct else mret false) h = (Ok false, h) ->
  py_dict dct h = (Ok (length h), h ++ [ODict items]) ->
  update_in_step dct x h =
    (Ok (dct, default (VRef (S (length h))) (dict_get (VStr x) items)),
     h ++ [ODict (match dict_get (VStr x) items with
                  | Some _ => items
                  | None => dict_set (VStr x) (VRef (S (length h))) items
                  end); ODict []]).
Proof.
  intros Htest Hcopy. unfold update_in_step.
  rewrite (bind_Ok _ _ _ _ _ Htest), (bind_Ok _ _ _ _ _ Hcopy).
  erewrite bind_Ok; [|reflexivity].
  rewrite length_app, Nat.add_1_r, <- app_assoc. cbn [app].
  unfold dict_setdefault.
  rewrite bind_assoc. erewrite bind_Ok; [|apply load_at, lookup_fresh].
  cbv beta iota.
  destruct (dict_get (VStr x) items) as [v|]; [reflexivity|].
  cbn [default]. unfold mbind, M_bind, store, mret, M_ret. f_equal.
  rewrite insert_app_r_alt by lia. by rewrite Nat.sub_diag.
Qed.

Lemma test_cases (dct : val) (x : string) (h : heap) :
  exists r, (if Str.isdigit x then isinstance_list dct else mret false) h = (r, h).
Proof.
  pose proof (unchanging_test dct x h) as H.
  destruct ((if Str.isdigit x then isinstance_list dct else mret false) h)
    as [r h']. cbn [snd] in H. subst. by exists r.
Qed.

Lemma growing_update_in_step (dct : val) (x : string) :
  growing (update_in_step dct x).
Proof.
  intros h. destruct (test_cases dct x h) as [[[|]|e] Htest].
  - unfold update_in_step. rewrite (bind_Ok _ _ _ _ _ Htest).
    apply unchanging_growing. apply unchanging_bind;
      [apply unchanging_list_getitem|intros ?; apply unchanging_ret].
  - destruct (py_dict_cases dct h) as [[e He]|[items Hitems]].
    + unfold update_in_step. rewrite (bind_Ok _ _ _ _ _ Htest).
      rewrite (bind_Raise _ _ _ _ _ He). exists []. by rewrite app_nil_r.
    + rewrite (update_in_step_copy _ _ _ _ Htest Hitems). by eexists.
  - unfold update_in_step. rewrite (bind_Raise _ _ _ _ _ Htest).
    exists []. by rewrite app_nil_r.
Qed.

Lemma growing_get_in_step (dct : val) (x : string) : growing (get_in_step dct x).
Proof.
  intros h. destruct (test_cases dct x h) as [[[|]|e] Htest];
    unfold get_in_step.
  - rewrite (bind_Ok _ _ _ _ _ Htest).
    apply unchanging_growing. apply unchanging_bind;
      [apply unchanging_list_getitem|intros ?; apply unchanging_ret].
  - rewrite (bind_Ok _ _ _ _ _ Htest).
    destruct (py_dict_cases dct h) as [[e He]|[items Hitems]].
    + rewrite (bind_Raise _ _ _ _ _ He). exists []. by rewrite app_nil_r.
    + rewrite (bind_Ok _ _ _ _ _ Hitems).
      exists [ODict items].
      apply (unchanging_bind (dict_get_method (length h) x)
               (fun v => mret (dct, v)));
        [apply unchanging_dict_get_method|intros ?; apply unchanging_ret].
  - rewrite (bind_Raise _ _ _ _ _ Htest). exists []. by rewrite app_nil_r.
Qed.

Lemma growing_for_segments (body : val -> string -> M (val * val))
    (segs : list string) :
  (forall dct x, growing (body dct x)) ->
  forall bound dct, growing (for_segments body segs bound dct).
Proof.
  intros Hbody. induction segs as [|x segs IH]; intros bound dct;
    cbn [for_segments].
  - apply unchanging_growing, unchanging_ret.
  - apply growing_bind; [apply Hbody|]. intros r. apply IH.
Qed.

(** X1: [get_in] only reads: whatever the tree, the path and the
    outcome, every object of the store is afterwards what it was; the
    copies the walk makes are new objects. *)
Theorem get_in_reads_only (tree : val) (path sep : string) (h : heap) :
  exists g, (get_in tree path sep h).2 = h ++ g.
Proof.
  revert h. change (growing (get_in tree path sep)). unfold get_in.
  apply growing_bind; [apply unchanging_growing, unchanging_lift|].
  intros segs. apply growing_bind;
    [apply growing_for_segments, growing_get_in_step|].
  intros [[[prev x]|] dct]; cbn [fst]; apply unchanging_growing;
    [apply unchanging_getitem_str|apply unchanging_raise].
Qed.

(** X2: whatever the tree, the path and the outcome, [update_in] takes
    no object away and changes at most one: a dict, in which the value is
    put under a key. Everything else it does to the store is new
    objects. *)
Theorem update_in_writes_once (tree : val) (path sep : string) (value : val)
    (h : heap) :
  exists g,
    (update_in tree path value sep h).2 = h ++ g \/
    exists l items x,
      (h ++ g) !! l = Some (ODict items) /\
      (update_in tree path value sep h).2
        = <[l := ODict (dict_set (VStr x) value items)]> (h ++ g).
Proof.
  unfold update_in. unfold mbind at 1, M_bind at 1, lift.
  destruct (Str.split path sep) as [segs|e]; [|exists []; left; by rewrite app_nil_r].
  destruct (growing_for_segments update_in_step segs growing_update_in_step
              None tree h) as [g Hg].
  unfold mbind, M_bind.
  destruct (for_segments update_in_step segs None tree h) as [[r|e] h'];
    cbn [snd] in Hg; subst; [|exists g; by left].
  exists g. destruct r as [[[prev x]|] dct]; cbn [fst]; [|by left].
  destruct prev as [| | |l]; try by left.
  cbn [setitem_str]. unfold mbind, M_bind, load.
  destruct ((h ++ g) !! l) as [[items|elems]|] eqn:Hl; try by left.
  right. by exists l, items, x.
Qed.

(** ** Walks along what the store holds *)

Lemma descend_prefix (segs : list string) :
  forall (h h' : heap) (node v : val),
    h `prefix_of` h' ->
    descend h node segs = Some v -> descend h' node segs = Some v.
Proof.
  induction segs as [|x segs IH]; intros h h' node v Hpre H; [exact H|].
  destruct node as [| | |l]; try discriminate. cbn [descend] in *.
  destruct (h !! l) as [o|] eqn:Hl; [|discriminate].
  assert (h' !! l = Some o) as -> by by eapply prefix_lookup_Some.
  destruct o as [items|elems].
  - destruct (dict_get (VStr x) items); [by eapply IH|discriminate].
  - destruct (Str.isdigit x); [|discriminate].
    destruct (elems !! Z.to_nat (int_of_digits x)); [by eapply IH|discriminate].
Qed.

Lemma descend_cons (h : heap) (node v : val) (x : string) (segs : list string) :
  descend h node (x :: segs) = Some v ->
  exists v1, descend h node [x] = Some v1 /\ descend h v1 segs = Some v.
Proof.
  destruct node as [| | |l]; try discriminate. cbn [descend]. intros H.
  destruct (h !! l) as [[items|elems]|]; try discriminate.
  - destruct (dict_get (VStr x) items) as [v1|]; [by exists v1|discriminate].
  - destruct (Str.isdigit x); [|discriminate].
    destruct (elems !! Z.to_nat (int_of_digits x)) as [v1|];
      [by exists v1|discriminate].
Qed.

Lemma descend_snoc (h : heap) (node v1 : val) (init : list string) (last : string) :
  descend h node init = Some v1 ->
  descend h node (init ++ [last]) = descend h v1 [last].
Proof.
  revert node. induction init as [|x init IH]; intros node H.
  - by simplify_eq/=.
  - destruct (descend_cons _ _ _ _ _ H) as (v2 & H2 & Hrest).
    change ((x :: init) ++ [last]) with (x :: (init ++ [last])).
    destruct node as [| | |l]; try discriminate. cbn [descend] in H2 |- *.
    destruct (h !! l) as [[items|elems]|]; try discriminate.
    + destruct (dict_get (VStr x) items); [|discriminate]. simplify_eq.
      by apply IH.
    + destruct (Str.isdigit x); [|discriminate].
      destruct (elems !! Z.to_nat (int_of_digits x)); [|discriminate].
      simplify_eq. by apply IH.
Qed.

(** One step of the walk of [update_in] at a list, for an all-digit
    segment. *)
Lemma update_in_step_list (h : heap) (l : loc) (elems : list val) (x : string) :
  h !! l = Some (OList elems) ->
  Str.isdigit x = true ->
  update_in_step (VRef l) x h =
    (match elems !! Z.to_nat (int_of_digits x) with
     | Some e => Ok (VRef l, e)
     | None => Raise IndexError
     end, h).
Proof.
  intros Hl Hx. unfold update_in_step. rewrite Hx.
  rewrite (bind_Ok _ _ _ _ _ (isinstance_list_at _ _ _ Hl)).
  destruct (elems !! Z.to_nat (int_of_digits x)) as [e|] eqn:He.
  - erewrite bind_Ok; [reflexivity|]. by rewrite (list_getitem_at _ _ _ _ Hl), He.
  - erewrite bind_Raise; [reflexivity|]. by rewrite (list_getitem_at _ _ _ _ Hl), He.
Qed.

(** One step of the walk of [update_in] at a dict. *)
Lemma update_in_step_dict (h : heap) (l : loc) (items : list (val * val))
    (x : string) :
  h !! l = Some (ODict items) ->
  update_in_step (VRef l) x h =
    (Ok (VRef l, default (VRef (S (length h))) (dict_get (VStr x) items)),
     h ++ [ODict (match dict_get (VStr x) items with
                  | Some _ => items
                  | None => dict_set (VStr x) (VRef (S (length h))) items
                  end); ODict []]).
Proof.
  intros Hl. apply update_in_step_copy.
  - by eapply dict_test_is_dict.
  - by apply py_dict_at_dict.
Qed.

Lemma follows_get_in_step : follows get_in_step.
Proof.
  intros h node x v H.
  destruct node as [| | |l]; try discriminate. cbn [descend] in H.
  destruct (h !! l) as [[items|elems]|] eqn:Hl; try discriminate.
  - destruct (dict_get (VStr x) items) as [v1|] eqn:Hx; [|discriminate].
    simplify_eq. exists [ODict items].
    by rewrite (get_in_step_dict _ _ _ _ Hl), Hx.
  - destruct (Str.isdigit x) eqn:Hx; [|discriminate].
    destruct (elems !! Z.to_nat (int_of_digits x)) as [e|] eqn:He; [|discriminate].
    simplify_eq. exists []. rewrite app_nil_r.
    by rewrite (get_in_step_list _ _ _ _ Hl Hx), He.
Qed.

Lemma follows_update_in_step : follows update_in_step.
Proof.
  intros h node x v H.
  destruct node as [| | |l]; try discriminate. cbn [descend] in H.
  destruct (h !! l) as [[items|elems]|] eqn:Hl; try discriminate.
  - destruct (dict_get (VStr x) items) as [v1|] eqn:Hx; [|discriminate].
    simplify_eq. eexists.
    by rewrite (update_in_step_dict _ _ _ _ Hl), Hx.
  - destruct (Str.isdigit x) eqn:Hx; [|discriminate].
    destruct (elems !! Z.to_nat (int_of_digits x)) as [e|] eqn:He; [|discriminate].
    simplify_eq. exists []. rewrite app_nil_r.
    by rewrite (update_in_step_list _ _ _ _ Hl Hx), He.
Qed.

Lemma for_segments_app (body : val -> string -> M (val * val))
    (a b : list string) :
  forall bound dct h,
    for_segments body (a ++ b) bound dct h
    = (for_segments body a bound dct
         ≫= fun r => for_segments body b r.1 r.2) h.
Proof.
  induction a as [|x a IH]; intros bound dct h; [reflexivity|].
  cbn [app for_segments]. unfold mbind, M_bind in *.
  destruct (body dct x h) as [[r|e] h']; [|reflexivity]. by rewrite IH.
Qed.

Lemma bind_for_segments_app {A} (body : val -> string -> M (val * val))
    (a b : list string) (k : option (val * string) * val -> M A)
    (bound : option (val * string)) (dct : val) (h : heap) :
  (for_segments body (a ++ b) bound dct ≫= k) h
  = (for_segments body a bound dct
       ≫= fun r => for_segments body b r.1 r.2 ≫= k) h.
Proof.
  unfold mbind at 1, M_bind at 1. rewrite for_segments_app.
  unfold mbind, M_bind.
  by destruct (for_segments body a bound dct h) as [[r|e] h'].
Qed.

(** A body that follows [descend] takes the loop where [descend]
    leads. *)
Lemma for_segments_follows (body : val -> string -> M (val * val))
    (segs : list string) :
  follows body ->
  forall h node v bound,
    descend h node segs = Some v ->
    exists g b, for_segments body segs bound node h = (Ok (b, v), h ++ g).
Proof.
  intros Hbody. induction segs as [|x segs IH]; intros h node v bound H.
  - simplify_eq/=. exists [], bound. by rewrite app_nil_r.
  - destruct (descend_cons _ _ _ _ _ H) as (v1 & H1 & Hrest).
    destruct (Hbody _ _ _ _ H1) as [g1 Hstep].
    assert (descend (h ++ g1) v1 segs = Some v) as Hrest'
      by (eapply descend_prefix; [by apply prefix_app_r|done]).
    destruct (IH _ _ _ (Some (node, x)) Hrest') as (g2 & b & Hloop).
    exists (g1 ++ g2), b. cbn [for_segments].
    rewrite (bind_Ok _ _ _ _ _ Hstep). cbn [fst snd].
    by rewrite Hloop, app_assoc.
Qed.

Lemma dict_get_set (k v : val) (items : list (val * val)) :
  dict_get k (dict_set k v items) = Some v.
Proof.
  induction items as [|[k' v'] items IH]; cbn [dict_set dict_get].
  - by rewrite bool_decide_eq_true_2.
  - destruct (bool_decide (k' = k)) eqn:Hk; cbn [dict_get]; by rewrite Hk.
Qed.

(** [get_in] where the segments before the last lead to a dict. *)
Lemma get_in_at_dict (h : heap) (tree : val) (path sep : string)
    (init : list string) (last : string) (p : loc) (items : list (val * val)) :
  Str.split path sep = Ok (init ++ [last]) ->
  descend h tree init = Some (VRef p) ->
  h !! p = Some (ODict items) ->
  exists g,
    get_in tree path sep h =
      (match dict_get (VStr last) items with
       | Some v => Ok v
       | None => Raise (KeyError last)
       end, h ++ g).
Proof.
  intros Hsplit Hwalk Hp.
  destruct (for_segments_follows _ init follows_get_in_step _ _ _ None Hwalk)
    as (g & b & Hloop).
  assert ((h ++ g) !! p = Some (ODict items)) as Hp1
    by (eapply prefix_lookup_Some; [done|by apply prefix_app_r]).
  exists (g ++ [ODict items]).
  rewrite (get_in_by_segments _ _ _ _ _ Hsplit).
  rewrite bind_for_segments_app, (bind_Ok _ _ _ _ _ Hloop).
  cbn [fst snd for_segments]. rewrite bind_assoc.
  rewrite (bind_Ok _ _ _ _ _ (get_in_step_dict _ _ _ last Hp1)).
  erewrite bind_Ok; [|reflexivity]. unfold get_in_return. cbn [fst snd].
  rewrite <- app_assoc in *.
  erewrite getitem_str_at;
    [|eapply prefix_lookup_Some; [exact Hp|by apply prefix_app_r]].
  reflexivity.
Qed.

(** X3: where the segments before the last lead to a dict, whatever
    the last key, [get_in] gives the value under it, or a [KeyError]
    when the dict does not have it; where they lead to a list and the
    last segment is all digits, it fails: with an [IndexError] past the
    end of the list, with a [TypeError] otherwise. Lists are passed
    through by index on the way, dicts by key. *)
Theorem get_in_follows (h : heap) (tree : val) (path sep : string)
    (init : list string) (last : string) (p : loc) (o : obj) :
  Str.split path sep = Ok (init ++ [last]) ->
  descend h tree init = Some (VRef p) ->
  h !! p = Some o ->
  match o with
  | ODict items =>
      (get_in tree path sep h).1
      = match dict_get (VStr last) items with
        | Some v => Ok v
        | None => Raise (KeyError last)
        end
  | OList elems =>
      Str.isdigit last = true ->
      (get_in tree path sep h).1
      = match elems !! Z.to_nat (int_of_digits last) with
        | Some _ => Raise TypeError
        | None => Raise IndexError
        end
  end.
Proof.
  intros Hsplit Hwalk Hp. destruct o as [items|elems].
  - destruct (get_in_at_dict _ _ _ _ _ _ _ _ Hsplit Hwalk Hp) as [g ->].
    reflexivity.
  - intros Hlast.
    destruct (for_segments_follows _ init follows_get_in_step _ _ _ None Hwalk)
      as (g & b & Hloop).
    assert ((h ++ g) !! p = Some (OList elems)) as Hp1
      by (eapply prefix_lookup_Some; [done|by apply prefix_app_r]).
    rewrite (get_in_by_segments _ _ _ _ _ Hsplit).
    rewrite bind_for_segments_app, (bind_Ok _ _ _ _ _ Hloop).
    cbn [fst snd for_segments]. rewrite bind_assoc.
    pose proof (get_in_step_list _ _ _ _ Hp1 Hlast) as Hstep.
    destruct (elems !! Z.to_nat (int_of_digits last)) as [e|].
    + rewrite (bind_Ok _ _ _ _ _ Hstep). erewrite bind_Ok; [|reflexivity].
      unfold get_in_return. cbn [fst snd].
      by rewrite (getitem_str_at _ _ _ _ Hp1).
    + by rewrite (bind_Raise _ _ _ _ _ Hstep).
Qed.

Lemma get_in_follows_witness :
  (get_in (VRef 0%nat) "c.0.d" "."
     [ODict [(VStr "c", VRef 1%nat)]; OList [VRef 2%nat; VInt 3];
      ODict [(VStr "d", VInt 2)]]).1
  = Ok (VInt 2).
Proof.
  exact (get_in_follows
           [ODict [(VStr "c", VRef 1%nat)]; OList [VRef 2%nat; VInt 3];
            ODict [(VStr "d", VInt 2)]]
           (VRef 0%nat) "c.0.d" "." ["c"; "0"] "d" 2%nat
           (ODict [(VStr "d", VInt 2)]) eq_refl eq_refl eq_refl).
Defined.

(** X4: where the segments before the last lead to a dict,
    [update_in] puts the value under the last key in that very dict and
    changes no other object; and [get_in] on the same path then gives
    the value back, as long as the segments before the last still lead
    to that dict. *)
Theorem update_in_sets_in_place (h : heap) (tree : val) (path sep : string)
    (value : val) (init : list string) (last : string) (p : loc)
    (items : list (val * val)) :
  Str.split path sep = Ok (init ++ [last]) ->
  descend h tree init = Some (VRef p) ->
  h !! p = Some (ODict items) ->
  exists g,
    update_in tree path value sep h
    = (Ok (), <[p := ODict (dict_set (VStr last) value items)]> (h ++ g)) /\
    (descend (<[p := ODict (dict_set (VStr last) value items)]> (h ++ g))
       tree init = Some (VRef p) ->
     (get_in tree path sep
        (<[p := ODict (dict_set (VStr last) value items)]> (h ++ g))).1
     = Ok value).
Proof.
  intros Hsplit Hwalk Hp.
  destruct (for_segments_follows _ init follows_update_in_step _ _ _ None Hwalk)
    as (g & b & Hloop).
  assert ((h ++ g) !! p = Some (ODict items)) as Hp1
    by (eapply prefix_lookup_Some; [done|by apply prefix_app_r]).
  eexists. split.
  - unfold update_in. erewrite bind_Ok; [|unfold lift; by rewrite Hsplit].
    rewrite bind_for_segments_app, (bind_Ok _ _ _ _ _ Hloop).
    cbn [fst snd for_segments]. rewrite bind_assoc.
    rewrite (bind_Ok _ _ _ _ _ (update_in_step_dict _ _ _ last Hp1)).
    erewrite bind_Ok; [|reflexivity]. cbn [fst snd].
    rewrite <- app_assoc.
    erewrite setitem_str_at_dict;
      [reflexivity|eapply prefix_lookup_Some; [exact Hp|by apply prefix_app_r]].
  - intros Hwalk'.
    edestruct (get_in_at_dict _ tree path sep init last p
                 (dict_set (VStr last) value items) Hsplit Hwalk') as [g' ->].
    { apply list_lookup_insert_eq. apply lookup_lt_Some in Hp.
      rewrite length_app. lia. }
    cbn [fst]. by rewrite dict_get_set.
Qed.

Lemma update_in_sets_in_place_witness :
  exists g,
    update_in (VRef 0%nat) "a.b" (VInt 9) "."
      [ODict [(VStr "a", VRef 1%nat)]; ODict [(VStr "b", VInt 7)]]
    = (Ok (),
       <[1%nat := ODict [(VStr "b", VInt 9)]]>
         ([ODict [(VStr "a", VRef 1%nat)]; ODict [(VStr "b", VInt 7)]] ++ g)).
Proof.
  destruct (update_in_sets_in_place
              [ODict [(VStr "a", VRef 1%nat)]; ODict [(VStr "b", VInt 7)]]
              (VRef 0%nat) "a.b" "." (VInt 9) ["a"] "b" 1%nat
              [(VStr "b", VInt 7)] eq_refl eq_refl eq_refl) as [g [H _]].
  exists g. exact H.
Defined.

(** X5: where the segments before the last lead to a list and the
    last segment is all digits, [update_in] fails and changes no object:
    with an [IndexError] past the end of the list, with a [TypeError]
    otherwise. *)
Theorem update_in_list_end (h : heap) (tree : val) (path sep : string)
    (value : val) (init : list string) (last : string) (p : loc)
    (elems : list val) :
  Str.split path sep = Ok (init ++ [last]) ->
  descend h tree init = Some (VRef p) ->
  h !! p = Some (OList elems) ->
  Str.isdigit last = true ->
  exists g,
    update_in tree path value sep h
    = (match elems !! Z.to_nat (int_of_digits last) with
       | Some _ => Raise TypeError
       | None => Raise IndexError
       end, h ++ g).
Proof.
  intros Hsplit Hwalk Hp Hlast.
  destruct (for_segments_follows _ init follows_update_in_step _ _ _ None Hwalk)
    as (g & b & Hloop).
  assert ((h ++ g) !! p = Some (OList elems)) as Hp1
    by (eapply prefix_lookup_Some; [done|by apply prefix_app_r]).
  exists g.
  unfold update_in. erewrite bind_Ok; [|unfold lift; by rewrite Hsplit].
  rewrite bind_for_segments_app, (bind_Ok _ _ _ _ _ Hloop).
  cbn [fst snd for_segments]. rewrite bind_assoc.
  pose proof (update_in_step_list _ _ _ _ Hp1 Hlast) as Hstep.
  destruct (elems !! Z.to_nat (int_of_digits last)) as [e|].
  - rewrite (bind_Ok _ _ _ _ _ Hstep). erewrite bind_Ok; [|reflexivity].
    cbn [fst snd]. unfold setitem_str.
    by rewrite (bind_Ok _ _ _ _ _ (load_at _ _ _ Hp1)).
  - by rewrite (bind_Raise _ _ _ _ _ Hstep).
Qed.

Lemma update_in_list_end_witness :
  exists g,
    update_in (VRef 0%nat) "c.0" (VInt 9) "."
      [ODict [(VStr "c", VRef 1%nat)]; OList [VRef 2%nat; VInt 3]; ODict []]
    = (Raise TypeError,
       [ODict [(VStr "c", VRef 1%nat)]; OList [VRef 2%nat; VInt 3]; ODict []]
       ++ g).
Proof.
  exact (update_in_list_end
           [ODict [(VStr "c", VRef 1%nat)]; OList [VRef 2%nat; VInt 3]; ODict []]
           (VRef 0%nat) "c.0" "." (VInt 9) ["c"] "0" 1%nat
           [VRef 2%nat; VInt 3] eq_refl eq_refl eq_refl eq_refl).
Defined.

(** ** Quotations, comments and whitespace in a text query *)

Lemma no_char_count (c : ascii) (s : string) :
  Str.mem_char c s = false -> Str.count_char c s = O.
Proof.
  induction s as [|d s IH]; [reflexivity|]. cbn [Str.mem_char Str.count_char].
  intros H. apply orb_false_elim in H as [-> H]. by rewrite (IH H).
Qed.

Lemma count_dquote : Str.count_char Str.quote_char dquote = 1%nat.
Proof. reflexivity. Qed.

(** Inside a quotation everything up to the next double quote is taken
    into the token, and the double quote ends the token. *)
Lemma tokens_from_quoted (body : string) :
  forall token rest,
    Str.mem_char Str.quote_char body = false ->
    Shlex.tokens_from Shlex.Quoted false token (body +:+ dquote +:+ rest)
    = Shlex.tokens_from Shlex.Whitespace false EmptyString rest
        ≫= fun ts => mret ((token +:+ body +:+ dquote) :: ts).
Proof.
  induction body as [|c body IH]; intros token rest Hbody.
  - reflexivity.
  - cbn [Str.mem_char] in Hbody. apply orb_false_elim in Hbody as [Hc Hbody].
    rewrite append_cons. cbn [Shlex.tokens_from].
    assert (Str.mem_char c Shlex.quotes = false) as ->.
    { cbn. by rewrite Ascii.eqb_sym, Hc. }
    rewrite (IH _ _ Hbody). unfold Str.of_char.
    by rewrite append_assoc, append_cons, append_empty_l.
Qed.

(** X6: a quotation that holds no double quote, whatever else it
    holds (whitespace, a hash sign, a colon), is one token: the sanitizer
    gives it back as it is, or inside a second pair of double quotes
    when it holds a colon; and it gives the same when the closing double
    quote was left out. *)
Theorem quoted_phrase_kept (body : string) :
  Str.mem_char Str.quote_char body = false ->
  _process_text_query (dquote +:+ body +:+ dquote)
  = Ok (_quote_if_kv_pair (dquote +:+ body +:+ dquote)) /\
  _process_text_query (dquote +:+ body)
  = Ok (_quote_if_kv_pair (dquote +:+ body +:+ dquote)).
Proof.
  intros Hbody.
  assert (Shlex.tokens (dquote +:+ body +:+ dquote)
          = Ok [dquote +:+ body +:+ dquote]) as Htokens.
  { unfold Shlex.tokens. change (dquote +:+ body +:+ dquote)
      with (String Str.quote_char (body +:+ dquote)) at 1.
    cbn [Shlex.tokens_from].
    change (Str.mem_char Str.quote_char Shlex.whitespace) with false.
    change (Str.mem_char Str.quote_char Shlex.commenters) with false.
    change (Str.mem_char Str.quote_char Shlex.quotes) with true. cbv iota.
    rewrite <- (append_empty_r (body +:+ dquote)), append_assoc.
    by rewrite (tokens_from_quoted _ _ _ Hbody). }
  assert (balance_quotes (dquote +:+ body +:+ dquote)
          = dquote +:+ body +:+ dquote) as Hboth.
  { unfold balance_quotes.
    by rewrite !count_char_append, count_dquote, (no_char_count _ _ Hbody). }
  assert (balance_quotes (dquote +:+ body) = dquote +:+ body +:+ dquote) as Hone.
  { unfold balance_quotes.
    rewrite !count_char_append, count_dquote, (no_char_count _ _ Hbody).
    by rewrite append_assoc. }
  unfold _process_text_query. rewrite Hboth, Hone. cbv zeta.
  by rewrite Htokens.
Qed.

Lemma quoted_phrase_kept_witness :
  _process_text_query (dquote +:+ "a b #c")
  = Ok (dquote +:+ "a b #c" +:+ dquote).
Proof. exact (proj2 (quoted_phrase_kept "a b #c" eq_refl)). Defined.

(** A comment without a newline runs to the end of the input. *)
Lemma comment_to_end (junk : string) :
  forall st token,
    Str.mem_char Str.newline junk = false ->
    Shlex.tokens_from st true token junk
    = Shlex.tokens_from st false token EmptyString.
Proof.
  induction junk as [|c junk IH]; intros st token Hjunk; [by destruct st|].
  cbn [Str.mem_char] in Hjunk. apply orb_false_elim in Hjunk as [Hc Hjunk].
  cbn [Shlex.tokens_from]. rewrite Ascii.eqb_sym, Hc. cbn [negb].
  by apply IH.
Qed.

Lemma skip_blank (s : string) :
  forall rest,
    blank s = true ->
    Shlex.tokens_from Shlex.Whitespace false EmptyString (s +:+ rest)
    = Shlex.tokens_from Shlex.Whitespace false EmptyString rest.
Proof.
  induction s as [|c s IH]; intros rest Hs; [reflexivity|].
  unfold blank in Hs. cbn [Str.all_chars] in Hs.
  apply andb_prop in Hs as [Hc Hs].
  rewrite append_cons. cbn [Shlex.tokens_from]. rewrite Hc. by apply IH.
Qed.

(** A plain word and the gap after it: the word is a token. *)
Lemma tokens_word_gap (w gap rest : string) :
  plain_word w = true ->
  blank gap = true -> gap <> EmptyString ->
  Shlex.tokens_from Shlex.Whitespace false EmptyString (w +:+ gap +:+ rest)
  = Shlex.tokens_from Shlex.Whitespace false EmptyString rest
      ≫= fun ts => mret (w :: ts).
Proof.
  intros Hw Hgap Hne. rewrite (tokens_from_start _ _ Hw).
  destruct gap as [|c gap]; [done|].
  unfold blank in Hgap. cbn [Str.all_chars] in Hgap.
  apply andb_prop in Hgap as [Hc Hgap].
  rewrite append_cons. cbn [Shlex.tokens_from]. rewrite Hc.
  by rewrite (skip_blank _ _ Hgap).
Qed.

(** A plain word and what is left of the input, when that is
    whitespace: the word is the last token. *)
Lemma tokens_word_trail (w trail : string) :
  plain_word w = true ->
  blank trail = true ->
  Shlex.tokens_from Shlex.Whitespace false EmptyString (w +:+ trail) = Ok [w].
Proof.
  intros Hw Htrail. destruct trail as [|c trail].
  - by rewrite (tokens_from_start _ _ Hw).
  - rewrite <- (append_empty_r (String c trail)).
    rewrite (tokens_word_gap _ _ _ Hw Htrail); done.
Qed.

Lemma tokens_interleave (rest : list (string * string)) :
  forall w trail,
    plain_word w = true ->
    Forall (fun gw => blank gw.1 = true /\ gw.1 <> EmptyString /\
                      plain_word gw.2 = true) rest ->
    blank trail = true ->
    Shlex.tokens_from Shlex.Whitespace false EmptyString
      (interleave w rest +:+ trail)
    = Ok (w :: map snd rest).
Proof.
  induction rest as [|[gap w'] rest IH]; intros w trail Hw Hrest Htrail.
  - by apply tokens_word_trail.
  - apply Forall_cons in Hrest as [(Hgap & Hne & Hw') Hrest].
    cbn [fst snd] in Hgap, Hne, Hw'.
    cbn [interleave fst snd map]. rewrite !append_assoc.
    rewrite (tokens_word_gap _ _ _ Hw Hgap Hne).
    by rewrite (IH _ _ Hw' Hrest Htrail).
Qed.

Lemma blank_no_quote (s : string) :
  blank s = true -> Str.count_char Str.quote_char s = O.
Proof.
  induction s as [|c s IH]; [reflexivity|]. unfold blank.
  cbn [Str.all_chars Str.count_char]. intros H.
  apply andb_prop in H as [Hc Hs]. rewrite (IH Hs).
  destruct (Ascii.eqb_spec Str.quote_char c) as [<-|]; [discriminate|reflexivity].
Qed.

Lemma plain_word_no_quote (w : string) :
  plain_word w = true -> Str.count_char Str.quote_char w = O.
Proof. intros H. apply plain_chars_no_quote. by destruct w. Qed.

Lemma interleave_no_quote (rest : list (string * string)) :
  forall w,
    plain_word w = true ->
    Forall (fun gw => blank gw.1 = true /\ gw.1 <> EmptyString /\
                      plain_word gw.2 = true) rest ->
    Str.count_char Str.quote_char (interleave w rest) = O.
Proof.
  induction rest as [|[gap w'] rest IH]; intros w Hw Hrest.
  - by apply plain_word_no_quote.
  - apply Forall_cons in Hrest as [(Hgap & Hne & Hw') Hrest].
    cbn [fst snd] in Hgap, Hne, Hw'.
    cbn [interleave fst snd]. rewrite !count_char_append.
    by rewrite (plain_word_no_quote _ Hw), (blank_no_quote _ Hgap),
      (IH _ Hw' Hrest).
Qed.

(** X7: plain words with whitespace of any kind and length between
    them, before the first and after the last come back with single
    spaces between them and none around them, the words that hold a
    colon inside double quotes. *)
Theorem whitespace_collapsed (lead trail w : string)
    (rest : list (string * string)) :
  blank lead = true ->
  blank trail = true ->
  plain_word w = true ->
  Forall (fun gw => blank gw.1 = true /\ gw.1 <> EmptyString /\
                    plain_word gw.2 = true) rest ->
  _process_text_query (lead +:+ interleave w rest +:+ trail)
  = Ok (Str.join " " (map _quote_if_kv_pair (w :: map snd rest))).
Proof.
  intros Hlead Htrail Hw Hrest.
  assert (balance_quotes (lead +:+ interleave w rest +:+ trail)
          = lead +:+ interleave w rest +:+ trail) as Hbal.
  { unfold balance_quotes. rewrite !count_char_append.
    by rewrite (blank_no_quote _ Hlead), (blank_no_quote _ Htrail),
      (interleave_no_quote _ _ Hw Hrest). }
  unfold _process_text_query. rewrite Hbal. cbv zeta. unfold Shlex.tokens.
  rewrite (skip_blank _ _ Hlead).
  by rewrite (tokens_interleave _ _ _ Hw Hrest Htrail).
Qed.

Lemma whitespace_collapsed_witness :
  _process_text_query
    (String Str.tab " " +:+ interleave "a:b" [(String " " (String Str.newline " "), "c")]
       +:+ "  ")
  = Ok (dquote +:+ "a:b" +:+ dquote +:+ " c").
Proof.
  apply (whitespace_collapsed (String Str.tab " ") "  " "a:b"
           [(String " " (String Str.newline " "), "c")]);
    [reflexivity..|].
  repeat constructor; done.
Defined.

(** X8: a hash sign that follows plain words and a space starts a
    comment: the sanitizer drops it and everything after it up to the end
    of the line, double quotes included. *)
Theorem comment_dropped (words : list string) (junk : string) :
  Forall (fun w => plain_word w = true) words ->
  Str.mem_char Str.newline junk = false ->
  _process_text_query (Str.join " " words +:+ " #" +:+ junk)
  = Ok (Str.join " " (map _quote_if_kv_pair words)).
Proof.
  intros Hwords Hjunk.
  assert (forall junk',
    Str.mem_char Str.newline junk' = false ->
    Shlex.tokens (Str.join " " words +:+ " #" +:+ junk') = Ok words) as Htokens.
  { intros junk' Hjunk'. unfold Shlex.tokens. clear Hjunk.
    induction Hwords as [|w words Hw Hwords IH].
    - cbn [Str.join]. rewrite append_empty_l.
      change (" #" +:+ junk') with (String " " (String "#" junk')).
      cbn [Shlex.tokens_from].
      change (Str.mem_char " " Shlex.whitespace) with true.
      change (Str.mem_char "#" Shlex.whitespace) with false.
      change (Str.mem_char "#" Shlex.commenters) with true. cbv iota.
      by rewrite (comment_to_end _ _ _ Hjunk').
    - destruct words as [|w' words].
      + cbn [Str.join] in *. rewrite append_empty_l in IH.
        change (" #" +:+ junk') with (" " +:+ "#" +:+ junk') in *.
        rewrite (tokens_word_gap w " " _ Hw eq_refl ltac:(done)).
        change ("#" +:+ junk') with (String "#" junk').
        cbn [Shlex.tokens_from].
        change (Str.mem_char "#" Shlex.whitespace) with false.
        change (Str.mem_char "#" Shlex.commenters) with true. cbv iota.
        by rewrite (comment_to_end _ _ _ Hjunk').
      + change (Str.join " " (w :: w' :: words))
          with (w +:+ " " +:+ Str.join " " (w' :: words)).
        rewrite !append_assoc.
        rewrite (tokens_word_gap w " " _ Hw eq_refl ltac:(done)).
        by rewrite IH. }
  assert (exists junk', Str.mem_char Str.newline junk' = false /\
            balance_quotes (Str.join " " words +:+ " #" +:+ junk)
            = Str.join " " words +:+ " #" +:+ junk') as (junk' & Hjunk' & Hbal).
  { unfold balance_quotes. destruct (Nat.eqb _ 1).
    - exists (junk +:+ dquote). split; [|by rewrite !append_assoc].
      clear -Hjunk. induction junk as [|c junk IH]; [reflexivity|].
      cbn [Str.mem_char] in Hjunk. apply orb_false_elim in Hjunk as [Hc Hjunk].
      rewrite append_cons. cbn [Str.mem_char]. by rewrite Hc, (IH Hjunk).
    - by exists junk. }
  unfold _process_text_query. rewrite Hbal. cbv zeta.
  by rewrite (Htokens _ Hjunk').
Qed.

Lemma comment_dropped_witness :
  _process_text_query
    (Str.join " " ["status:active"; "x"] +:+ " #" +:+ (dquote +:+ "rest of it"))
  = Ok (dquote +:+ "status:active" +:+ dquote +:+ " x").
Proof.
  apply (comment_dropped ["status:active"; "x"] (dquote +:+ "rest of it"));
    [repeat constructor|reflexivity].
Defined.

(** ** Letter case in filter values *)

Lemma lower_keeps_dash (c : ascii) :
  Ascii.eqb "-" (Str.lower_char c) = Ascii.eqb "-" c.
Proof. destruct c as [[] [] [] [] [] [] [] []]; reflexivity. Qed.

Lemma startswith_dash (c : ascii) (s : string) :
  Str.startswith (String c s) "-" = Ascii.eqb "-" c.
Proof. cbn [Str.startswith]. destruct s; apply andb_true_r. Qed.

Lemma map_chars_append (f : ascii -> ascii) (a b : string) :
  Str.map_chars f (a +:+ b) = Str.map_chars f a +:+ Str.map_chars f b.
Proof.
  induction a as [|x a IH]; [reflexivity|].
  rewrite append_cons. cbn [Str.map_chars]. by rewrite append_cons, IH.
Qed.

(** Splitting at dashes and lowering the letters can be done in either
    order. *)
Lemma split_from_lower (s : string) :
  forall cur,
    map Str.lower (Str.split_from "-" O cur s)
    = Str.split_from "-" O (Str.lower cur) (Str.lower s).
Proof.
  induction s as [|c s IH]; intros cur; [reflexivity|].
  unfold Str.lower at 3. cbn [Str.map_chars Str.split_from].
  rewrite !startswith_dash, lower_keeps_dash.
  destruct (Ascii.eqb "-" c).
  - cbn [map String.length Nat.sub]. f_equal. apply (IH EmptyString).
  - rewrite IH. f_equal. unfold Str.lower. by rewrite map_chars_append.
Qed.

Lemma split_lower (value : string) :
  Str.split value "-" ≫= (fun parts => mret (map Str.lower parts))
  = Str.split (Str.lower value) "-".
Proof.
  unfold Str.split. cbn [mbind result_bind mret result_ret]. f_equal.
  apply (split_from_lower value EmptyString).
Qed.

(** X9: for [insync], [tags], [tag], [product], [status] and
    [statuses] the letter case of the value plays no part: two values
    that agree once lowered compile to the same query. *)
Theorem folded_filter_values (schema : Schema) (query : Query)
    (field value value' : string) :
  field ∈ folded_fields ->
  Str.lower value = Str.lower value' ->
  apply_filter schema query field value = apply_filter schema query field value'.
Proof.
  intros Hfield Hlower.
  assert (forall v (col : list string -> criterion),
    (Str.split v "-" ≫= fun parts =>
       mret (Query_filter query (col (map Str.lower parts))))
    = (Str.split (Str.lower v) "-" ≫= fun parts =>
       mret (Query_filter query (col parts)))) as Hsplit.
  { intros v col. rewrite <- split_lower. unfold Str.split. reflexivity. }
  unfold folded_fields in Hfield.
  repeat (apply elem_of_cons in Hfield as [->|Hfield]);
    [..|by apply elem_of_nil in Hfield].
  - change (apply_filter schema query "insync" value)
      with (Ok (Query_filter query
                  (Is (SubscriptionAttr "insync")
                     (bool_decide (Str.lower value ∈ truthy))))).
    change (apply_filter schema query "insync" value')
      with (Ok (Query_filter query
                  (Is (SubscriptionAttr "insync")
                     (bool_decide (Str.lower value' ∈ truthy))))).
    by rewrite Hlower.
  - change (apply_filter schema query "tags" value)
      with (Str.split value "-" ≫= fun parts =>
              mret (Query_filter query
                      (LowerIn (ProductAttr "tag") (map Str.lower parts)))).
    change (apply_filter schema query "tags" value')
      with (Str.split value' "-" ≫= fun parts =>
              mret (Query_filter query
                      (LowerIn (ProductAttr "tag") (map Str.lower parts)))).
    by rewrite !Hsplit, Hlower.
  - change (apply_filter schema query "tag" value)
      with (Str.split value "-" ≫= fun parts =>
              mret (Query_filter query
                      (LowerIn (ProductAttr "tag") (map Str.lower parts)))).
    change (apply_filter schema query "tag" value')
      with (Str.split value' "-" ≫= fun parts =>
              mret (Query_filter query
                      (LowerIn (ProductAttr "tag") (map Str.lower parts)))).
    by rewrite !Hsplit, Hlower.
  - change (apply_filter schema query "product" value)
      with (Str.split value "-" ≫= fun parts =>
              mret (Query_filter query
                      (LowerIn (ProductAttr "name") (map Str.lower parts)))).
    change (apply_filter schema query "product" value')
      with (Str.split value' "-" ≫= fun parts =>
              mret (Query_filter query
                      (LowerIn (ProductAttr "name") (map Str.lower parts)))).
    by rewrite !Hsplit, Hlower.
  - change (apply_filter schema query "status" value)
      with (Str.split value "-" ≫= fun parts =>
              mret (Query_filter query
                      (In_ (SubscriptionAttr "status") (map Str.lower parts)))).
    change (apply_filter schema query "status" value')
      with (Str.split value' "-" ≫= fun parts =>
              mret (Query_filter query
                      (In_ (SubscriptionAttr "status") (map Str.lower parts)))).
    by rewrite !Hsplit, Hlower.
  - change (apply_filter schema query "statuses" value)
      with (Str.split value "-" ≫= fun parts =>
              mret (Query_filter query
                      (In_ (SubscriptionAttr "status") (map Str.lower parts)))).
    change (apply_filter schema query "statuses" value')
      with (Str.split value' "-" ≫= fun parts =>
              mret (Query_filter query
                      (In_ (SubscriptionAttr "status") (map Str.lower parts)))).
    by rewrite !Hsplit, Hlower.
Qed.

Lemma folded_filter_values_witness :
  apply_filter example_schema empty_query "tags" "Node-PORT"
  = apply_filter example_schema empty_query "tags" "node-port".
Proof.
  apply (folded_filter_values example_schema empty_query "tags"
           "Node-PORT" "node-port"); [|reflexivity].
  unfold folded_fields. rewrite !elem_of_cons. tauto.
Defined.

(** ** Comparison suffixes *)

(** X10: a name of [SubscriptionTable.__dict__] whose entry is a
    column, with one of the five suffixes added, compiles to the
    comparison of that suffix on the attribute of that name, with the
    value as it was given. *)
Theorem suffix_operators (schema : Schema) (query : Query)
    (name value : string) :
  name ∈ SubscriptionTable_dict schema ->
  name ∈ SubscriptionTable_columns schema ->
  apply_filter schema query (name +:+ "_gt") value
  = Ok (Query_filter query (Gt (SubscriptionAttr name) value)) /\
  apply_filter schema query (name +:+ "_gte") value
  = Ok (Query_filter query (Ge (SubscriptionAttr name) value)) /\
  apply_filter schema query (name +:+ "_lte") value
  = Ok (Query_filter query (Le (SubscriptionAttr name) value)) /\
  apply_filter schema query (name +:+ "_lt") value
  = Ok (Query_filter query (Lt (SubscriptionAttr name) value)) /\
  apply_filter schema query (name +:+ "_ne") value
  = Ok (Query_filter query (Ne (SubscriptionAttr name) value)).
Proof.
  intros Hname Hcolumn.
  assert (SubscriptionTable_getitem schema name = Ok (SubscriptionAttr name))
    as Hget.
  { unfold SubscriptionTable_getitem. by rewrite bool_decide_eq_true_2. }
  assert (forall c, criterion_on schema (SubscriptionAttr name) c = Ok c)
    as Hon.
  { intros c. unfold criterion_on. by rewrite bool_decide_eq_true_2. }
  repeat split;
    (erewrite apply_filter_suffix; [|rewrite !elem_of_cons; tauto]);
    rewrite Hget; cbn [mbind result_bind]; by rewrite Hon.
Qed.

Lemma suffix_operators_witness :
  apply_filter example_schema empty_query "start_date_gte" "2020"
  = Ok (Query_filter empty_query (Ge (SubscriptionAttr "start_date") "2020")).
Proof.
  refine (proj1 (proj2 (suffix_operators example_schema empty_query
                          "start_date" "2020" _ _)));
    refine (bool_decide_unpack _ _); vm_compute; exact I.
Defined.

(** On an entry that is no column the comparison is the class's matter:
    on the relationship [product] of the example it raises. *)
Example suffix_on_relationship :
  apply_filter example_schema empty_query "product_ne" "x"
  = Raise AttributeError.
Proof. reflexivity. Qed.

(** ** Fields without a rule *)

Lemma unsuffixed_None (field : string) :
  unsuffixed field = None ->
  Str.endswith field "_gt" = false /\ Str.endswith field "_gte" = false /\
  Str.endswith field "_lte" = false /\ Str.endswith field "_lt" = false /\
  Str.endswith field "_ne" = false.
Proof. unfold unsuffixed. intros H. repeat case_match; try discriminate; done. Qed.

(** A field with no suffix that is no special name: a substring
    criterion on the entry when the subscription table defines it,
    nothing otherwise. *)
Lemma apply_filter_plain (schema : Schema) (query : Query) (field value : string) :
  unsuffixed field = None ->
  field ∉ special_fields ->
  apply_filter schema query field value =
    if bool_decide (field ∈ SubscriptionTable_dict schema)
    then c ← criterion_on schema (SubscriptionAttr field)
               (CastStringIlike (SubscriptionAttr field)
                  ("%" +:+ value +:+ "%"));
         mret (Query_filter query c)
    else Ok query.
Proof.
  intros Hsuffix Hspecial.
  destruct (unsuffixed_None _ Hsuffix) as (H1 & H2 & H3 & H4 & H5).
  unfold special_fields in Hspecial. rewrite !not_elem_of_cons in Hspecial.
  destruct Hspecial as (S1 & S2 & S3 & S4 & S5 & S6 & S7 & S8 & _).
  unfold apply_filter. rewrite H1, H2, H3, H4, H5.
  rewrite (proj2 (String.eqb_neq _ _) S1), (proj2 (String.eqb_neq _ _) S2),
    (proj2 (String.eqb_neq _ _) S3), (proj2 (String.eqb_neq _ _) S4),
    (proj2 (String.eqb_neq _ _) S5), (proj2 (String.eqb_neq _ _) S6),
    (proj2 (String.eqb_neq _ _) S7), (proj2 (String.eqb_neq _ _) S8).
  unfold SubscriptionTable_getitem.
  by destruct (bool_decide (field ∈ SubscriptionTable_dict schema)).
Qed.

(** X11: a pair whose field has no suffix, is no special name and is
    not defined by the subscription table adds nothing: the filter list
    compiles to what it compiles to without the pair. *)
Theorem unknown_field_ignored (schema : Schema) (query : Query)
    (pre post : list string) (field value : string) :
  Nat.even (length pre) = true ->
  unsuffixed field = None ->
  field ∉ special_fields ->
  field ∉ SubscriptionTable_dict schema ->
  filter_step schema query (Some (pre ++ field :: value :: post))
  = filter_step schema query (Some (pre ++ post)).
Proof.
  intros Hpre Hsuffix Hspecial Hundefined. unfold filter_step.
  rewrite !(chunked2_app_even _ _ Hpre), !apply_filters_app.
  destruct (apply_filters schema query (chunked2 pre)) as [q|e]; [|reflexivity].
  cbn [mbind result_bind chunked2 apply_filters].
  rewrite (apply_filter_plain _ _ _ _ Hsuffix Hspecial).
  by rewrite bool_decide_eq_false_2.
Qed.

Lemma unknown_field_ignored_witness :
  filter_step example_schema empty_query
    (Some (["insync"; "yes"] ++ ["colour"; "red"; "status"; "active"]))
  = filter_step example_schema empty_query
    (Some (["insync"; "yes"] ++ ["status"; "active"])).
Proof.
  apply (unknown_field_ignored example_schema empty_query ["insync"; "yes"]
           ["status"; "active"] "colour" "red"); [reflexivity..| |].
  - refine (bool_decide_unpack _ _). vm_compute. exact I.
  - refine (bool_decide_unpack _ _). vm_compute. exact I.
Defined.

(** ** What compiling keeps *)

Lemma extends_refl (q : Query) : extends_query q q.
Proof. by repeat split. Qed.

Lemma extends_trans (q1 q2 q3 : Query) :
  extends_query q1 q2 -> extends_query q2 q3 -> extends_query q1 q3.
Proof.
  intros (J1 & C1 & O1 & W1 & L1) (J2 & C2 & O2 & W2 & L2).
  repeat split; try (by etrans); congruence.
Qed.

Lemma extends_filter (q : Query) (c : criterion) :
  extends_query q (Query_filter q c).
Proof. repeat split; try done. by apply prefix_app_r. Qed.

Lemma extends_join (q : Query) (e : entity) : extends_query q (Query_join q e).
Proof. repeat split; try done. by apply prefix_app_r. Qed.

Lemma extends_order_by (q : Query) (o : ordering) :
  extends_query q (Query_order_by q o).
Proof. repeat split; try done. by apply prefix_app_r. Qed.

Lemma apply_filter_extends (schema : Schema) (query q' : Query)
    (field value : string) :
  apply_filter schema query field value = Ok q' ->
  extends_query query q' /\ q_order q' = q_order query.
Proof.
  unfold apply_filter.
  assert (forall name (c : attribute -> criterion),
    (a ← SubscriptionTable_getitem schema name;
     c' ← criterion_on schema a (c a);
     mret (Query_filter query c')) = Ok q' ->
    extends_query query q' /\ q_order q' = q_order query) as Hattr.
  { intros name c. unfold SubscriptionTable_getitem.
    destruct (bool_decide _); cbn [mbind result_bind]; [|discriminate].
    destruct (criterion_on _ _ _); [|discriminate].
    intros [= <-]. split; [apply extends_filter|done]. }
  do 5 (destruct (Str.endswith field _); [by apply Hattr|]).
  rewrite (split_Ok value "-" "-" EmptyString eq_refl).
  cbn [mbind result_bind mret result_ret].
  do 6 (destruct (String.eqb field _);
        [intros [= <-]; split; [apply extends_filter|done]|]).
  destruct (String.eqb field "organisation").
  { destruct (UUID value) as [u|[]]; try discriminate.
    intros [= <-]. split; [apply extends_filter|done]. }
  destruct (String.eqb field "tsv").
  { destruct (_process_text_query value); [|discriminate]. intros [= <-].
    split; [|done].
    eapply extends_trans; [apply extends_join|apply extends_filter]. }
  destruct (bool_decide _); [by apply Hattr|].
  intros [= <-]. split; [apply extends_refl|done].
Qed.

Lemma apply_filters_extends (schema : Schema) (chunks : list (list string)) :
  forall query q',
    apply_filters schema query chunks = Ok q' ->
    extends_query query q' /\ q_order q' = q_order query.
Proof.
  induction chunks as [|c chunks IH]; intros query q'; cbn [apply_filters].
  - intros [= <-]. split; [apply extends_refl|done].
  - destruct (match c with [field; value] => _ | _ => _ end) as [q1|] eqn:Hc;
      [|discriminate]. cbn [mbind result_bind]. intros [H HO]%IH.
    assert (extends_query query q1 /\ q_order q1 = q_order query) as [H1 HO1].
    { destruct c as [|f [|v [|? ?]]]; simplify_eq;
        try (split; [apply extends_refl|done]).
      by eapply apply_filter_extends. }
    split; [by eapply extends_trans|congruence].
Qed.

Lemma apply_sort_extends (schema : Schema) (query q' : Query)
    (key direction : string) :
  apply_sort schema query key direction = Ok q' ->
  extends_query query q' /\ q_criteria q' = q_criteria query /\
  q_joins q' = q_joins query.
Proof.
  unfold apply_sort, ProductTable_getitem, SubscriptionTable_getitem.
  unfold mbind, result_bind, mret, result_ret.
  intros H. repeat case_match; simplify_eq;
    (split; [apply extends_order_by|done]).
Qed.

Lemma apply_sorts_extends (schema : Schema) (chunks : list (list string)) :
  forall query q',
    apply_sorts schema query chunks = Ok q' ->
    extends_query query q' /\ q_criteria q' = q_criteria query /\
    q_joins q' = q_joins query.
Proof.
  induction chunks as [|c chunks IH]; intros query q'; cbn [apply_sorts].
  - intros [= <-]. split; [apply extends_refl|done].
  - destruct (match c with [key; direction] => _ | _ => _ end) as [q1|] eqn:Hc;
      [|discriminate]. cbn [mbind result_bind]. intros (H & HC & HJ)%IH.
    assert (extends_query query q1 /\ q_criteria q1 = q_criteria query /\
            q_joins q1 = q_joins query) as (H1 & HC1 & HJ1).
    { destruct c as [|f [|v [|? ?]]]; simplify_eq;
        try (split; [apply extends_refl|done]).
      by eapply apply_sort_extends. }
    split; [by eapply extends_trans|split; congruence].
Qed.

(** X12: compiling filters and sort tokens only adds to the query it is
    given: the joins, criteria and orderings the query had stay where
    they were, before the new ones, and its offset and limit stay; the
    filters add no ordering and the sort tokens no join or criterion. *)
Theorem compiling_extends (schema : Schema) (query q1 q' : Query)
    (sort filters : option (list string)) :
  filter_step schema query filters = Ok q1 ->
  sort_step schema q1 sort = Ok q' ->
  extends_query query q' /\
  q_order q1 = q_order query /\
  q_criteria q' = q_criteria q1 /\
  q_joins q' = q_joins q1.
Proof.
  intros Hfilter Hsort.
  assert (extends_query query q1 /\ q_order q1 = q_order query) as [H1 HO].
  { unfold filter_step in Hfilter. destruct filters as [filters|];
      [by eapply apply_filters_extends|].
    simplify_eq. split; [apply extends_refl|done]. }
  assert (extends_query q1 q' /\ q_criteria q' = q_criteria q1 /\
          q_joins q' = q_joins q1) as (H2 & HC & HJ).
  { unfold sort_step in Hsort. destruct sort as [sort|];
      [|simplify_eq; split; [apply extends_refl|done]].
    destruct (2 <=? length sort)%nat;
      [by eapply apply_sorts_extends|].
    simplify_eq. split; [apply extends_refl|done]. }
  split; [by eapply extends_trans|]. by repeat split.
Qed.

Lemma compiling_extends_witness :
  extends_query (MkQuery [] [Is (SubscriptionAttr "insync") true] [] 0 None)
    (MkQuery [] [Is (SubscriptionAttr "insync") true;
                 In_ (SubscriptionAttr "status") ["active"]]
       [Desc (SubscriptionAttr "status")] 0 None).
Proof.
  exact (proj1 (compiling_extends example_schema
                  (MkQuery [] [Is (SubscriptionAttr "insync") true] [] 0 None)
                  _ _ (Some ["status"; "desc"]) (Some ["status"; "Active"])
                  eq_refl eq_refl)).
Defined.

(** ** A sort token left over *)

Lemma apply_sorts_app (schema : Schema) (c1 c2 : list (list string)) :
  forall query,
    apply_sorts schema query (c1 ++ c2)
    = apply_sorts schema query c1 ≫= fun q => apply_sorts schema q c2.
Proof.
  induction c1 as [|c c1 IH]; intros query; [reflexivity|].
  cbn [app apply_sorts].
  destruct (match c with [key; direction] => _ | _ => _ end) as [q|e];
    [apply IH|reflexivity].
Qed.

(** X13: a sort-token list of odd length sorts as the list without its
    last token does: a single token sorts nothing, and after one or more
    pairs a token left over is passed over. *)
Theorem odd_sort_list_drops_last (schema : Schema) (db : Store)
    (response : Response) (query : Query)
    (range : option (list range_item)) (filters : option (list string))
    (sort : list string) :
  Nat.odd (length sort) = true ->
  sort_step schema query (Some sort)
  = sort_step schema query (Some (removelast sort)) /\
  _query_with_filters schema db response query range (Some sort) filters
  = _query_with_filters schema db response query range
      (Some (removelast sort)) filters.
Proof.
  intros Hodd.
  assert (forall q, sort_step schema q (Some sort)
                    = sort_step schema q (Some (removelast sort))) as Hstep.
  { intros q. unfold sort_step.
    destruct sort as [|a [|b sort]]; [discriminate|reflexivity|].
    destruct (chunked2_odd _ Hodd) as [x Hx].
    destruct sort as [|c sort]; [discriminate|].
    change (removelast (a :: b :: c :: sort))
      with (a :: b :: removelast (c :: sort)) in *.
    change (2 <=? length (a :: b :: c :: sort))%nat with true.
    change (2 <=? length (a :: b :: removelast (c :: sort)))%nat with true.
    cbv iota. rewrite Hx, apply_sorts_app.
    by destruct (apply_sorts schema q _). }
  split; [apply Hstep|]. unfold _query_with_filters.
  destruct (filter_step schema query filters) as [q1|]; [|reflexivity].
  cbn [mbind result_bind]. by rewrite Hstep.
Qed.

Lemma odd_sort_list_drops_last_witness :
  sort_step example_schema empty_query (Some ["status"; "desc"; "insync"])
  = sort_step example_schema empty_query (Some ["status"; "desc"]).
Proof.
  exact (proj1 (odd_sort_list_drops_last example_schema example_store
                  empty_response empty_query None None
                  ["status"; "desc"; "insync"] eq_refl)).
Defined.

(** ** getattr_in *)

Lemma reduce_app (f : pyobj -> string -> result pyobj) (l1 l2 : list string) :
  forall acc,
    reduce f acc (l1 ++ l2) = reduce f acc l1 ≫= fun o => reduce f o l2.
Proof.
  induction l1 as [|s l1 IH]; intros acc; [reflexivity|].
  cbn [app reduce]. destruct (f acc s) as [acc'|e]; [apply IH|reflexivity].
Qed.

(** The segments of two paths with a dot between them are the segments
    of the first and then those of the second. *)
Lemma split_from_dot_append (a b : string) :
  forall cur,
    Str.split_from "." O cur (a +:+ "." +:+ b)
    = Str.split_from "." O cur a ++ Str.split_from "." O EmptyString b.
Proof.
  induction a as [|c a IH]; intros cur.
  - rewrite append_empty_l. change ("." +:+ b) with (String "." b).
    cbn [Str.split_from]. rewrite startswith_dot. reflexivity.
  - rewrite append_cons. cbn [Str.split_from]. rewrite !startswith_dot.
    change (String.length "." - 1)%nat with O.
    destruct (Ascii.eqb "." c); by rewrite IH.
Qed.

(** X14: [getattr_in] on two paths with a dot between them is
    [getattr_in] on the first and then, on what that gives, on the
    second; an error of the first is the error of the whole. *)
Theorem getattr_in_composes (NoneType_attrs : string -> option pyobj)
    (obj : pyobj) (a b : string) :
  getattr_in NoneType_attrs obj (a +:+ "." +:+ b)
  = getattr_in NoneType_attrs obj a
      ≫= fun o => getattr_in NoneType_attrs o b.
Proof.
  unfold getattr_in, Str.split. cbn [mbind result_bind].
  rewrite split_from_dot_append, reduce_app.
  by destruct (reduce _ obj _).
Qed.

Lemma list_index_raise (elems : list pyobj) (i : Z) (e : exn) :
  list_index elems i = Raise e -> e = IndexError.
Proof. unfold list_index. intros H. repeat case_match; congruence. Qed.

Lemma _getattr_raise (NoneType_attrs : string -> option pyobj) (obj : pyobj)
    (attr : string) (e : exn) :
  _getattr NoneType_attrs obj attr = Raise e ->
  (exists elems, obj = GList elems) /\ (e = ValueError \/ e = IndexError).
Proof.
  destruct obj as [|elems| |]; try discriminate. cbn [_getattr].
  intros H. split; [by eexists|].
  destruct (Int.parse 10 attr) as [i|e'] eqn:Hparse; cbn in H.
  - right. by eapply list_index_raise.
  - left. apply parse_raise in Hparse. congruence.
Qed.

(** X15: [getattr_in] fails nowhere but at a list: with a
    [ValueError] when the segment there is no int, with an [IndexError]
    when the int is no index of the list. A key that a dict does not
    have and a name that an object does not have give [None]. *)
Theorem getattr_in_fails_at_lists (NoneType_attrs : string -> option pyobj)
    (obj : pyobj) (attr : string) (e : exn) :
  getattr_in NoneType_attrs obj attr = Raise e ->
  e = ValueError \/ e = IndexError.
Proof.
  unfold getattr_in, Str.split. cbn [mbind result_bind].
  generalize (Str.split_from "." O EmptyString attr). intros segs.
  revert obj. induction segs as [|s segs IH]; intros obj; [discriminate|].
  cbn [reduce].
  destruct (_getattr NoneType_attrs obj s) as [acc|e'] eqn:Hstep; cbn.
  - apply IH.
  - intros [= ->]. by apply _getattr_raise in Hstep as [_ ?].
Qed.

Lemma getattr_in_fails_at_lists_witness :
  IndexError = ValueError \/ IndexError = IndexError.
Proof.
  exact (getattr_in_fails_at_lists (fun _ => None)
           (GDict [("c", GList [GNone])]) "c.5" IndexError eq_refl).
Defined.

Lemma reduce_None (NoneType_attrs : string -> option pyobj) (segs : list string) :
  Forall (fun s => NoneType_attrs s = None) segs ->
  reduce (_getattr NoneType_attrs) GNone segs = Ok GNone.
Proof.
  induction 1 as [|s segs Hs _ IH]; [reflexivity|].
  cbn [reduce _getattr]. by rewrite Hs.
Qed.

(** X16: a key that a dict does not have ends the walk of
    [getattr_in] without an error: the result is [None], whatever
    segments follow, as long as none of them names an attribute of
    [None]. *)
Theorem getattr_in_missing_key (NoneType_attrs : string -> option pyobj)
    (items : list (string * pyobj)) (attr key : string) (rest : list string) :
  Str.split attr "." = Ok (key :: rest) ->
  assoc key items = None ->
  Forall (fun s => NoneType_attrs s = None) rest ->
  getattr_in NoneType_attrs (GDict items) attr = Ok GNone.
Proof.
  intros Hsplit Hkey Hrest. unfold getattr_in. rewrite Hsplit.
  cbn [mbind result_bind reduce _getattr]. rewrite Hkey. cbn [default].
  by apply reduce_None.
Qed.

Lemma getattr_in_missing_key_witness :
  getattr_in (fun _ => None) (GDict []) "a.b.c" = Ok GNone.
Proof.
  apply (getattr_in_missing_key (fun _ => None) [] "a.b.c" "a" ["b"; "c"]);
    [reflexivity..|].
  by repeat constructor.
Defined.

(** ** The two ways of reading an int *)

Lemma digit_of_digit (c : ascii) :
  Str.is_digit_char c = true -> Int.digit_of 10 c = Some (Str.digit_value c).
Proof. destruct c as [[] [] [] [] [] [] [] []]; try discriminate; reflexivity. Qed.

Lemma digit_not_underscore (c : ascii) :
  Str.is_digit_char c = true -> Ascii.eqb c "_" = false.
Proof. destruct c as [[] [] [] [] [] [] [] []]; try discriminate; reflexivity. Qed.

Lemma scan_digits (s : string) :
  forall seen acc,
    Str.all_chars Str.is_digit_char s = true ->
    (seen = true \/ s <> EmptyString) ->
    Int.scan 10 seen false acc s = Some (Str.digits_value acc s, EmptyString).
Proof.
  induction s as [|c s IH]; intros seen acc Hs Hne.
  - destruct Hne as [->|]; [reflexivity|done].
  - cbn [Str.all_chars] in Hs. apply andb_prop in Hs as [Hc Hs].
    cbn [Int.scan Str.digits_value].
    rewrite (digit_not_underscore _ Hc), (digit_of_digit _ Hc).
    apply IH; [done|by left].
Qed.


(** On an all-digit str, [int] as the range step and [getattr_in] use
    it gives the number that the walks of [get_in] and [update_in]
    index with. *)
Lemma parse_digits (x : string) :
  Str.isdigit x = true -> Int.parse 10 x = Ok (int_of_digits x).
Proof.
  intros Hx. destruct x as [|c x]; [discriminate|].
  unfold Str.isdigit in Hx. pose proof Hx as Hall.
  cbn [Str.all_chars] in Hx. apply andb_prop in Hx as [Hc Hx].
  unfold Int.parse, int_of_digits.
  assert (Str.lstrip Int.blanks (String c x) = String c x) as ->.
  { cbn [Str.lstrip].
    destruct c as [[] [] [] [] [] [] [] []]; try discriminate; reflexivity. }
  assert (match String c x with
          | String "+" s' => (1, s')
          | String "-" s' => (-1, s')
          | _ => (1, String c x)
          end = (1, String c x)) as ->.
  { destruct c as [[] [] [] [] [] [] [] []]; try discriminate; reflexivity. }
  cbn [fst snd]. change (Int.strip_prefix 10 (String c x)) with (String c x).
  rewrite (scan_digits _ false 0 Hall) by (by right).
  cbn [Str.lstrip]. f_equal. lia.
Qed.

(** X17: at a list, an all-digit segment makes [getattr_in] give the
    element at that index, and fail with an [IndexError] past the end:
    where [get_in] and [update_in] stop on a list, [getattr_in] reads
    it. *)
Theorem getattr_in_list_index (NoneType_attrs : string -> option pyobj)
    (elems : list pyobj) (x : string) :
  Str.isdigit x = true ->
  getattr_in NoneType_attrs (GList elems) x
  = match elems !! Z.to_nat (int_of_digits x) with
    | Some e => Ok e
    | None => Raise IndexError
    end.
Proof.
  intros Hx. unfold getattr_in. rewrite (split_digits _ Hx).
  cbn [mbind result_bind reduce _getattr]. rewrite (parse_digits _ Hx).
  cbn [mbind result_bind]. unfold list_index.
  assert (0 <= int_of_digits x) as Hpos.
  { unfold int_of_digits. destruct x as [|c x]; [discriminate|].
    unfold Str.isdigit in Hx.
    assert (forall s acc, Str.all_chars Str.is_digit_char s = true ->
                          0 <= acc -> 0 <= Str.digits_value acc s) as Hdigits.
    { intros s. induction s as [|d s IH]; intros acc Hs Hacc; [done|].
      cbn [Str.all_chars] in Hs. apply andb_prop in Hs as [Hd Hs].
      cbn [Str.digits_value]. apply IH; [done|].
      assert (0 <= Str.digit_value d); [|lia].
      destruct d as [[] [] [] [] [] [] [] []]; try discriminate; cbn; lia. }
    by apply Hdigits. }
  rewrite (proj2 (Z.ltb_ge _ _) Hpos).
  destruct (elems !! Z.to_nat (int_of_digits x)) as [e|] eqn:He.
  - pose proof (lookup_lt_Some _ _ _ He) as Hlt.
    rewrite (proj2 (Z.leb_le _ _) Hpos). cbn [andb].
    by rewrite (proj2 (Z.ltb_lt _ _)) by lia.
  - by destruct (_ && _).
Qed.

Lemma getattr_in_list_index_witness :
  getattr_in (fun _ => None) (GList [GNone; GDict []; GNone]) "1" = Ok (GDict []).
Proof.
  exact (getattr_in_list_index (fun _ => None) [GNone; GDict []; GNone] "1"
           eq_refl).
Defined.

(** ** The paths of product_block_paths lead to mappings *)

Lemma pyval_nested_ind (P : pyval -> Prop) :
  P PNone -> (forall n, P (PInt n)) -> (forall s, P (PStr s)) ->
  (forall items, Forall (fun kv => P kv.2) items -> P (PDict items)) ->
  (forall elems, Forall P elems -> P (PList elems)) ->
  forall v, P v.
Proof.
  intros HN HI HS HD HL. fix IH 1. intros [|n|s|items|elems].
  - exact HN.
  - apply HI.
  - apply HS.
  - apply HD. induction items as [|[k v] items IHitems]; constructor;
      [apply IH|exact IHitems].
  - apply HL. induction elems as [|e elems IHelems]; constructor;
      [apply IH|exact IHelems].
Qed.

(** An entry whose value is a list: the paths of its elements. *)
Lemma product_block_paths_list_entry (k : string) (elems : list pyval)
    (rest : list (string * pyval)) :
  product_block_paths (PDict ((k, PList elems) :: rest))
  = elem_paths k 0 elems ++ product_block_paths (PDict rest).
Proof.
  unfold product_block_paths. cbn [get_dict_items]. rewrite map_app. f_equal.
  generalize O. induction elems as [|e elems IH]; intros index; [reflexivity|].
  cbn [elem_paths]. rewrite map_app, IH. f_equal.
  destruct e; try reflexivity.
  rewrite map_app, paths_of_prefixed. reflexivity.
Qed.

Lemma well_keyed_items (items : list (string * pyval)) :
  well_keyed (PDict items) ->
  NoDup (map fst items) /\
  Forall (fun kv => Str.mem_char "." kv.1 = false /\ well_keyed kv.2) items.
Proof.
  intros [Hdup Hall]. split; [exact Hdup|]. clear Hdup.
  induction items as [|[k v] items IH]; [constructor|].
  destruct Hall as (Hk & Hv & Hall). constructor; [by split|by apply IH].
Qed.

Lemma well_keyed_elems (elems : list pyval) :
  well_keyed (PList elems) -> Forall well_keyed elems.
Proof.
  intros Hall. induction elems as [|e elems IH]; [constructor|].
  destruct Hall as [He Hall]. constructor; [done|by apply IH].
Qed.

Lemma assoc_NoDup {A} (items : list (string * A)) (k : string) (v : A) :
  NoDup (map fst items) -> (k, v) ∈ items -> assoc k items = Some v.
Proof.
  induction items as [|[k' v'] items IH]; intros Hdup Hin.
  - by apply elem_of_nil in Hin.
  - cbn [map fst] in Hdup. apply NoDup_cons in Hdup as [Hk' Hdup].
    cbn [assoc fst snd]. apply elem_of_cons in Hin as [[= -> ->]|Hin].
    + by rewrite String.eqb_refl.
    + destruct (String.eqb_spec k' k) as [->|_]; [|by apply IH].
      exfalso. apply Hk'. apply list_elem_of_In, in_map_iff.
      exists (k, v). split; [done|by apply list_elem_of_In].
Qed.

Lemma split_from_dotfree (s : string) :
  forall cur,
    Str.mem_char "." s = false ->
    Str.split_from "." O cur s = [cur +:+ s].
Proof.
  induction s as [|c s IH]; intros cur Hs.
  - by rewrite append_empty_r.
  - cbn [Str.mem_char] in Hs. apply orb_false_elim in Hs as [Hc Hs].
    cbn [Str.split_from]. rewrite startswith_dot, Hc.
    by rewrite (IH _ Hs), append_assoc.
Qed.

(** A key without a dot, a dot and a path: the key is the first
    segment. *)
Lemma split_key_path (k p : string) (segs : list string) :
  Str.mem_char "." k = false ->
  Str.split p "." = Ok segs ->
  Str.split (k +:+ "." +:+ p) "." = Ok (k :: segs).
Proof.
  unfold Str.split. intros Hk [= <-]. f_equal.
  by rewrite split_from_dot_append, (split_from_dotfree _ _ Hk).
Qed.

Lemma digits_of_uint (d : Decimal.uint) :
  forall acc,
    Str.all_chars Str.is_digit_char (NilEmpty.string_of_uint d) = true /\
    Str.digits_value (Z.of_nat acc) (NilEmpty.string_of_uint d)
    = Z.of_nat (Nat.of_uint_acc d acc).
Proof.
  induction d as [|d IH|d IH|d IH|d IH|d IH|d IH|d IH|d IH|d IH|d IH];
    intros acc; [by split|..];
    cbn [NilEmpty.string_of_uint Str.all_chars Str.digits_value Nat.of_uint_acc];
    rewrite Nat.tail_mul_spec;
    (split; [apply (IH acc)|]);
    match goal with
    | |- Str.digits_value ?z _ = Z.of_nat (Nat.of_uint_acc _ ?n) =>
        replace z with (Z.of_nat n)
          by (unfold Str.digit_value; cbn [nat_of_ascii]; vm_compute Z.of_nat at 3; lia)
    end; apply IH.
Qed.

(** The decimal str of a number is all digits and reads back as the
    number. *)
Lemma of_nat_digits (n : nat) :
  Str.isdigit (Str.of_nat n) = true /\
  int_of_digits (Str.of_nat n) = Z.of_nat n.
Proof.
  unfold Str.of_nat, NilZero.string_of_uint, int_of_digits, Str.isdigit.
  pose proof (DecimalNat.Unsigned.of_to n) as Hn. unfold Nat.of_uint in Hn.
  remember (Nat.to_uint n) as d eqn:Hd. clear Hd.
  destruct (digits_of_uint d O) as [Hall Hval]. rewrite Hn in Hval.
  destruct d; cbn [Nat.of_uint_acc] in Hn; subst; split;
    first [exact Hall|exact Hval].
Qed.

Lemma digits_dotfree (s : string) :
  Str.all_chars Str.is_digit_char s = true -> Str.mem_char "." s = false.
Proof.
  induction s as [|c s IH]; [reflexivity|]. cbn [Str.all_chars Str.mem_char].
  intros H. apply andb_prop in H as [Hc Hs].
  by rewrite (digit_is_not_dot _ Hc), (IH Hs).
Qed.

Lemma of_nat_dotfree (n : nat) : Str.mem_char "." (Str.of_nat n) = false.
Proof.
  destruct (of_nat_digits n) as [H _]. apply digits_dotfree.
  unfold Str.isdigit in H. by destruct (Str.of_nat n).
Qed.

(** Every path that the elements of a list give is the key, the index
    of an element that is a dict, and maybe a path inside that dict. *)
Lemma elem_paths_elem (k : string) (elems : list pyval) :
  forall index p,
    p ∈ elem_paths k index elems ->
    exists i sub,
      elems !! i = Some (PDict sub) /\
      (p = k +:+ "." +:+ Str.of_nat (index + i) \/
       exists p', p' ∈ product_block_paths (PDict sub) /\
                  p = (k +:+ "." +:+ Str.of_nat (index + i)) +:+ "." +:+ p').
Proof.
  induction elems as [|e elems IH]; intros index p Hp.
  - by apply elem_of_nil in Hp.
  - cbn [elem_paths] in Hp. apply elem_of_app in Hp as [Hp|Hp].
    + destruct e as [| | |sub|]; try by apply elem_of_nil in Hp.
      exists O, sub. rewrite Nat.add_0_r. split; [reflexivity|].
      apply elem_of_app in Hp as [Hp|Hp].
      * right. apply list_elem_of_In, in_map_iff in Hp as (p' & <- & Hp').
        exists p'. split; [by apply list_elem_of_In|reflexivity].
      * left. apply elem_of_cons in Hp as [->|Hp]; [reflexivity|].
        by apply elem_of_nil in Hp.
    + destruct (IH _ _ Hp) as (i & sub & Hi & Hcase).
      exists (S i), sub. rewrite Nat.add_succ_r. by split.
Qed.

(** X18: in a tree whose dicts have each key once and no dot in a
    key, every path that [product_block_paths] lists leads to a mapping
    of the tree: split at the dots and followed from the root, by key
    through dicts and by index through lists, it ends at a dict. *)
Theorem product_block_paths_lead_to_mappings (items : list (string * pyval))
    (p : string) :
  well_keyed (PDict items) ->
  p ∈ product_block_paths (PDict items) ->
  exists segs sub,
    Str.split p "." = Ok segs /\
    descend_tree (PDict items) segs = Some (PDict sub).
Proof.
  set (S := fun v : pyval =>
    well_keyed v -> forall p, p ∈ product_block_paths v ->
    exists segs sub,
      Str.split p "." = Ok segs /\ descend_tree v segs = Some (PDict sub)).
  enough (forall v, S v /\ match v with
                           | PList elems => Forall S elems
                           | _ => True
                           end) as H
    by (intros Hwf Hp; exact (proj1 (H (PDict items)) Hwf p Hp)).
  clear items p. intros v.
  induction v as [|n|s|items IH|elems IH] using pyval_nested_ind;
    try (split; [intros _ p Hp; by apply elem_of_nil in Hp|exact I]).
  2: { split; [intros _ p Hp; by apply elem_of_nil in Hp|].
       eapply Forall_impl; [exact IH|]. by intros e [He _]. }
  split; [|exact I]. intros Hwf p Hp.
  destruct (well_keyed_items _ Hwf) as [Hdup Hkeys].
  assert (forall suffix,
    (forall kv, kv ∈ suffix -> kv ∈ items) ->
    p ∈ product_block_paths (PDict suffix) ->
    exists segs sub,
      Str.split p "." = Ok segs /\
      descend_tree (PDict items) segs = Some (PDict sub)) as Hsuffix.
  { clear Hp. intros suffix. induction suffix as [|[k v] suffix IHs];
      intros Hsub Hp; [by apply elem_of_nil in Hp|].
    assert ((k, v) ∈ items) as Hkv by (apply Hsub; by left).
    assert (forall kv, kv ∈ suffix -> kv ∈ items) as Hsub'
      by (intros kv Hin; apply Hsub; by right).
    pose proof (assoc_NoDup _ _ _ Hdup Hkv) as Hassoc.
    destruct (proj1 (Forall_forall _ _) Hkeys _ Hkv) as [Hk Hv].
    pose proof (proj1 (Forall_forall _ _) IH _ Hkv) as [HS Hlist].
    cbn [fst snd] in Hk, Hv, HS, Hlist.
    destruct v as [|n|s|sub|elems].
    - rewrite product_block_paths_atom_entry in Hp by reflexivity. by apply IHs.
    - rewrite product_block_paths_atom_entry in Hp by reflexivity. by apply IHs.
    - rewrite product_block_paths_atom_entry in Hp by reflexivity. by apply IHs.
    - rewrite product_block_paths_dict_entry in Hp.
      apply elem_of_app in Hp as [Hp|Hp].
      + apply list_elem_of_In, in_map_iff in Hp as (p' & <- & Hp').
        apply list_elem_of_In in Hp'.
        destruct (HS Hv _ Hp') as (segs & sub' & Hsplit & Hwalk).
        exists (k :: segs), sub'. split; [by apply split_key_path|].
        cbn [descend_tree]. by rewrite Hassoc.
      + apply elem_of_cons in Hp as [->|Hp]; [|by apply IHs].
        exists [k], sub. split.
        * unfold Str.split. by rewrite (split_from_dotfree _ _ Hk).
        * cbn [descend_tree]. by rewrite Hassoc.
    - rewrite product_block_paths_list_entry in Hp.
      apply elem_of_app in Hp as [Hp|Hp]; [|by apply IHs].
      destruct (elem_paths_elem _ _ _ _ Hp) as (i & sub & Hi & Hcase).
      cbn [Nat.add] in Hcase.
      destruct (of_nat_digits i) as [Hdigit Hint].
      assert (descend_tree (PDict items) [k; Str.of_nat i] = Some (PDict sub))
        as Hwalk.
      { cbn [descend_tree]. rewrite Hassoc, Hdigit, Hint, Nat2Z.id.
        by rewrite Hi. }
      destruct Hcase as [->|(p' & Hp' & ->)].
      + exists [k; Str.of_nat i], sub. split; [|exact Hwalk].
        apply split_key_path; [exact Hk|]. by apply split_digits.
      + pose proof (proj1 (Forall_forall _ _) Hlist _
                      (list_elem_of_lookup_2 _ _ _ Hi)) as HSe.
        pose proof (proj1 (Forall_forall _ _) (well_keyed_elems _ Hv) _
                      (list_elem_of_lookup_2 _ _ _ Hi)) as Hwfe.
        destruct (HSe Hwfe _ Hp') as (segs & sub' & Hsplit & Hwalk').
        exists (k :: Str.of_nat i :: segs), sub'. split.
        * rewrite !append_assoc. apply split_key_path; [exact Hk|].
          apply split_key_path; [apply of_nat_dotfree|exact Hsplit].
        * cbn [descend_tree] in Hwalk |- *.
          rewrite Hassoc in Hwalk |- *. rewrite Hdigit in Hwalk |- *.
          destruct (elems !! Z.to_nat (int_of_digits (Str.of_nat i)));
            [|discriminate]. by simplify_eq. }
  apply (Hsuffix items); [done|exact Hp].
Qed.

Lemma product_block_paths_lead_to_mappings_witness :
  exists segs sub,
    Str.split "c.0" "." = Ok segs /\
    descend_tree example_tree segs = Some (PDict sub).
Proof.
  apply (product_block_paths_lead_to_mappings
           [("a", PDict [("b", PInt 1)]);
            ("c", PList [PDict [("d", PInt 2)]; PInt 3])] "c.0").
  - cbn [well_keyed map fst].
    repeat split; try reflexivity;
      refine (bool_decide_unpack _ _); vm_compute; exact I.
  - refine (bool_decide_unpack _ _). vm_compute. exact I.
Defined.

Lemma elem_paths_no_dict (k : string) (elems : list pyval) :
  Forall (fun e => forall sub, e <> PDict sub) elems ->
  forall index, elem_paths k index elems = [].
Proof.
  induction 1 as [|e elems He _ IH]; intros index; [reflexivity|].
  cbn [elem_paths]. rewrite IH.
  destruct e; try reflexivity. by destruct (He items).
Qed.

(** X19: a list none of whose elements is a dict gives no path: not for
    itself, and not for what its elements hold, so that a dict inside a
    list that is itself an element of a list is never listed. *)
Theorem product_block_paths_skips_plain_lists (k : string)
    (elems : list pyval) (rest : list (string * pyval)) :
  Forall (fun e => forall sub, e <> PDict sub) elems ->
  product_block_paths (PDict ((k, PList elems) :: rest))
  = product_block_paths (PDict rest).
Proof.
  intros Helems.
  by rewrite product_block_paths_list_entry, elem_paths_no_dict.
Qed.

Lemma product_block_paths_skips_plain_lists_witness :
  product_block_paths
    (PDict [("ports", PList [PList [PDict [("id", PInt 7)]]; PInt 1]);
            ("vc", PDict [])])
  = product_block_paths (PDict [("vc", PDict [])]).
Proof.
  apply product_block_paths_skips_plain_lists.
  repeat constructor; discriminate.
Defined.
